(** * Selective Repeat ARQ simulator: window core, channel and run loop

    Shallow embedding of [src/03_selective_repeat_arq/sr_arq_simulator.py].

    - Python integers are [Z]; [ack_received] is a [list bool] read and
      written with Python's index rules (negative indices count from the
      end, anything else out of range raises [IndexError]).
    - A method is a function from the object to the object after the call,
      the lines it printed and how it completed (normally or by raising):
      a Python exception does not roll back the mutations made before it.
    - The module constants are an explicit environment ([Config]).
    - [random.random()] is a stream of rationals indexed by the number of
      draws made so far; floats are idealised as rationals.
    - Threads are pools of pending work; one scheduler action runs one
      thread up to its next suspension point, and a section guarded by
      [self.lock] is never interleaved with another one. *)

From Stdlib Require Import ZArith QArith Lia Lqa.
From stdpp Require Import base list strings pretty.

Local Open Scope Z_scope.

(** ** Python lists *)

Module Py.

Inductive exn := IndexError | OverflowError | MemoryError.

(** What an expression evaluates to. *)
Inductive result (A : Type) := Ok (x : A) | Error (e : exn).
Arguments Ok {A} x.
Arguments Error {A} e.

(** How a call ends. *)
Inductive completion := Normal | Raises (e : exn).

(** Position designated by the index [i] in a list of length [n]. *)
Definition index (n : nat) (i : Z) : option nat :=
  if (0 <=? i) && (i <? Z.of_nat n) then Some (Z.to_nat i)
  else if (- Z.of_nat n <=? i) && (i <? 0) then Some (Z.to_nat (Z.of_nat n + i))
  else None.

(** [l[i]]; [None] stands for [IndexError]. *)
Definition getitem {A} (l : list A) (i : Z) : option A :=
  match index (length l) i with
  | Some k => l !! k
  | None => None
  end.

(** [l[i] = x]; [None] stands for [IndexError]. *)
Definition setitem {A} (l : list A) (i : Z) (x : A) : option (list A) :=
  match index (length l) i with
  | Some k => Some (<[k:=x]> l)
  | None => None
  end.

(** Whether [n] fits an index-sized integer (64-bit CPython). *)
Definition fits_index (n : Z) : bool := (- 2 ^ 63 <=? n) && (n <? 2 ^ 63).

(** [[x] * n].  The count is first converted to an index-sized integer,
    which raises [OverflowError] when it does not fit; a count of zero or
    less gives the empty list; otherwise the list is allocated, which
    raises [MemoryError] when it is longer than [capacity], the longest
    list the interpreter can allocate at that moment. *)
Definition repeat_list {A} (capacity : Z) (x : A) (n : Z) : result (list A) :=
  if fits_index n then
    if (n <=? 0) || (n <=? capacity) then Ok (replicate (Z.to_nat n) x)
    else Error MemoryError
  else Error OverflowError.

End Py.

Import Py.

(** ** Printed lines *)

Inductive event :=
| EvStart                  (* Starting Selective Repeat ARQ simulation... *)
| EvSend (seq : Z)         (* [SEND] Frame seq sent. *)
| EvLoss (seq : Z)         (* [LOSS] Frame seq lost in transit. *)
| EvReorder (seq : Z)      (* [REORDER] Frame seq reordered (delayed). *)
| EvTimeout (seq : Z)      (* [TIMEOUT] Frame seq timed out. Retransmitting... *)
| EvAck (seq : Z)          (* [ACK RECEIVED] Frame seq acknowledged. *)
| EvDone.                  (* All frames transmitted and acknowledged successfully. *)

(** ** Module constants *)

Record Config := mkConfig {
  LOSS_PROBABILITY : Q;
  REORDER_PROBABILITY : Q;
  TIMEOUT : Q;
  DELAY_RANGE : Q * Q
}.

Definition TOTAL_FRAMES : Z := 10.
Definition WINDOW_SIZE : Z := 4.

Definition module_config : Config :=
  {| LOSS_PROBABILITY := 2 # 10;
     REORDER_PROBABILITY := 2 # 10;
     TIMEOUT := 2 # 1;
     DELAY_RANGE := (5 # 10, 15 # 10) |}.

(** ** Frames and the sender object *)

Record Frame := mkFrame { seq_num : Z; data : string }.

(** [Frame(seq, f"Data{seq}")] *)
Definition make_frame (seq : Z) : Frame := mkFrame seq ("Data" +:+ pretty seq).

Record SelectiveRepeatARQ := mkARQ {
  total_frames : Z;
  window_size : Z;
  base : Z;
  next_seq_num : Z;
  ack_received : list bool
}.

Definition set_base (self : SelectiveRepeatARQ) (b : Z) : SelectiveRepeatARQ :=
  mkARQ (total_frames self) (window_size self) b (next_seq_num self) (ack_received self).

Definition set_next_seq_num (self : SelectiveRepeatARQ) (n : Z) : SelectiveRepeatARQ :=
  mkARQ (total_frames self) (window_size self) (base self) n (ack_received self).

Definition set_ack_received (self : SelectiveRepeatARQ) (a : list bool) : SelectiveRepeatARQ :=
  mkARQ (total_frames self) (window_size self) (base self) (next_seq_num self) a.

(** [SelectiveRepeatARQ.__init__]: it reads no module constant and tests
    nothing.  With integer arguments the only statement of it that can
    raise is [self.ack_received = [False] * total_frames]; the caller then
    gets the exception and no object.  The lock it creates is not a field
    here: in a run it is held exactly while the main thread is inside its
    inner loop (see [lock_free] below). *)
Definition __init__ (capacity : Z) (cfg : Config) (total window : Z)
  : result SelectiveRepeatARQ :=
  match repeat_list capacity false total with
  | Ok table => Ok (mkARQ total window 0 0 table)
  | Error e => Error e
  end.

(** The object [SelectiveRepeatARQ(total, window)] evaluates to when
    [__init__] returns ([init_returns] below).  The runs and objects
    studied below start from it; for a [total] whose table cannot be built
    the program holds no such object. *)
Definition new_arq (total window : Z) : SelectiveRepeatARQ :=
  mkARQ total window 0 0 (replicate (Z.to_nat total) false).

(** *** [receive_ack] *)

(** The loop [while self.base < self.total_frames and
    self.ack_received[self.base]: self.base += 1], started at [b].  Every
    turn adds one to [b] and needs [b < total], so [total - b] turns are
    the most it can take; [slide_window] starts it with that many
    ([slide_window_eq] below is the loop's own unfolding, with no fuel left
    in it).  The result is the value of [base] when the loop stops and how
    it stopped. *)
Fixpoint slide (fuel : nat) (total : Z) (acks : list bool) (b : Z) : Z * completion :=
  if b <? total then
    match getitem acks b with
    | None => (b, Raises IndexError)
    | Some false => (b, Normal)
    | Some true =>
        match fuel with
        | O => (b, Normal)
        | S fuel' => slide fuel' total acks (b + 1)
        end
    end
  else (b, Normal).

Definition slide_window (total : Z) (acks : list bool) (b : Z) : Z * completion :=
  slide (Z.to_nat (total - b)) total acks b.

(** The body of [with self.lock:] in [receive_ack]. *)
Definition receive_ack (self : SelectiveRepeatARQ) (seq : Z)
  : SelectiveRepeatARQ * list event * completion :=
  match getitem (ack_received self) seq with
  | None => (self, [], Raises IndexError)
  | Some true => (self, [], Normal)
  | Some false =>
      match setitem (ack_received self) seq true with
      | None => (self, [], Raises IndexError)
      | Some acks =>
          let '(b, c) := slide_window (total_frames self) acks (base self) in
          (set_base (set_ack_received self acks) b, [EvAck seq], c)
      end
  end.

(** *** The sending loop of [run] *)

(** Test of the inner [while] of [run]. *)
Definition window_open (self : SelectiveRepeatARQ) : bool :=
  (next_seq_num self <? base self + window_size self)
  && (next_seq_num self <? total_frames self).

(** Test of the outer [while] of [run]. *)
Definition unfinished (self : SelectiveRepeatARQ) : bool :=
  base self <? total_frames self.

(** One turn of the inner [while]: the frame built and the object after
    [self.next_seq_num += 1]. *)
Definition send_in_window (self : SelectiveRepeatARQ) : option (Frame * SelectiveRepeatARQ) :=
  if window_open self
  then Some (make_frame (next_seq_num self),
             set_next_seq_num self (next_seq_num self + 1))
  else None.

(** ** The channel: [send_frame] *)

(** Computations that draw from the random source: [src] is the stream that
    [random.random()] walks through, the [nat] the number of draws made. *)
Definition Rand (A : Type) : Type := (nat -> Q) -> nat -> A * nat.

#[global] Instance rand_ret : MRet Rand := fun A x _ i => (x, i).

#[global] Instance rand_bind : MBind Rand :=
  fun A B k m src i => let '(x, j) := m src i in k x src j.

(** [random.random()] *)
Definition random : Rand Q := fun src i => (src i, S i).

(** [random.uniform(a, b)], that is [a + (b - a) * random()], in exact
    arithmetic; in doubles the result is rounded and can be [b] itself. *)
Definition uniform (a b : Q) : Rand Q :=
  r ← random; mret (a + (b - a) * r)%Q.

Definition Qltb (x y : Q) : bool := negb (Qle_bool y x).

(** What a [send_frame] thread still has to do once its draws are made. *)
Inductive outcome :=
| Dropped                                 (* return *)
| SleepThenAck (delay : Q) (seq : Z).     (* time.sleep(delay); self.receive_ack(seq) *)

Definition send_frame (cfg : Config) (frame : Frame) : Rand (list event * outcome) :=
  delay ← uniform (fst (DELAY_RANGE cfg)) (snd (DELAY_RANGE cfg));
  r ← random;
  if Qltb r (LOSS_PROBABILITY cfg) then
    mret ([EvLoss (seq_num frame)], Dropped)
  else
    r' ← random;
    if Qltb r' (REORDER_PROBABILITY cfg) then
      extra ← uniform 1 2;
      mret ([EvReorder (seq_num frame)], SleepThenAck (delay + extra)%Q (seq_num frame))
    else
      mret ([], SleepThenAck delay (seq_num frame)).

(** ** Timers: [start_timer] *)

(** What [timer_thread] does once [time.sleep(TIMEOUT)] is over, inside
    [with self.lock:]: the lines printed, the frames handed to new
    [send_frame] threads, and how it ends.  It starts no timer. *)
Definition timer_thread (self : SelectiveRepeatARQ) (seq : Z)
  : list event * list Frame * completion :=
  match getitem (ack_received self) seq with
  | None => ([], [], Raises IndexError)
  | Some false => ([EvTimeout seq], [make_frame seq], Normal)
  | Some true => ([], [], Normal)
  end.

(** ** The threads of a run *)

(** Where the main thread is in [run]: before the banner, at the test of the
    outer [while] (or in the [time.sleep(0.5)] before it), at [with
    self.lock:] waiting for the lock, in the inner [while] holding the
    lock, or past the last line. *)
Inductive main_pc := AtStart | AtOuter | AtLock | InLock | Finished.

Record World := mkWorld {
  arq : SelectiveRepeatARQ;
  main : main_pc;
  senders : list Frame;          (* send_frame threads that have not drawn yet *)
  sleepers : list (Q * Z);       (* send_frame threads in time.sleep(delay) *)
  timers : list Z;               (* timer threads in time.sleep(TIMEOUT) *)
  draws : nat                    (* draws made from the random source *)
}.

Definition lock_free (w : World) : bool :=
  match main w with InLock => false | _ => true end.

(** The scheduler's choice: the main thread, or the [k]-th thread of a pool. *)
Inductive action :=
| RunMain
| RunSender (k : nat)
| WakeSleeper (k : nat)
| FireTimer (k : nat).

(** One step of the main thread in [run]: the banner; the test of the outer
    [while], ending with the closing line when it fails; taking the lock;
    one turn of the inner [while] (frame built, [SEND] line, [send_frame]
    thread started, [start_timer], [next_seq_num] incremented), or leaving
    it, which releases the lock. *)
Definition step_main (w : World) : option (World * list event) :=
  match main w with
  | AtStart =>
      Some (mkWorld (arq w) AtOuter (senders w) (sleepers w) (timers w) (draws w),
            [EvStart])
  | AtOuter =>
      if unfinished (arq w)
      then Some (mkWorld (arq w) AtLock (senders w) (sleepers w) (timers w) (draws w), [])
      else Some (mkWorld (arq w) Finished (senders w) (sleepers w) (timers w) (draws w),
                 [EvDone])
  | AtLock =>
      (* no other thread holds the lock between two steps *)
      Some (mkWorld (arq w) InLock (senders w) (sleepers w) (timers w) (draws w), [])
  | InLock =>
      match send_in_window (arq w) with
      | Some (frame, self') =>
          Some (mkWorld self' InLock (senders w ++ [frame]) (sleepers w)
                        (timers w ++ [seq_num frame]) (draws w),
                [EvSend (seq_num frame)])
      | None =>
          Some (mkWorld (arq w) AtOuter (senders w) (sleepers w) (timers w) (draws w), [])
      end
  | Finished => None
  end.

(** One scheduled step; [None] when the thread chosen does not exist or
    waits for the lock.  A [send_frame] thread first makes its draws, then
    sleeps, then calls [receive_ack]; a timer thread wakes up into
    [timer_thread].  A thread is gone after its last step however that
    ended: an exception ends the thread, not the run, and what the thread
    had changed stays changed.  Every [time.sleep] is taken to return, as
    it does for the durations [module_config] gives; a negative duration
    makes CPython raise [ValueError], which ends the thread on the spot and
    is not a step here. *)
Definition step (cfg : Config) (src : nat -> Q) (w : World) (a : action)
  : option (World * list event) :=
  match a with
  | RunMain => step_main w
  | RunSender k =>
      match senders w !! k with
      | None => None
      | Some frame =>
          let '((evs, out), i) := send_frame cfg frame src (draws w) in
          let woken := match out with
                       | Dropped => []
                       | SleepThenAck d seq => [(d, seq)]
                       end in
          Some (mkWorld (arq w) (main w) (delete k (senders w))
                        (sleepers w ++ woken) (timers w) i, evs)
      end
  | WakeSleeper k =>
      match sleepers w !! k with
      | None => None
      | Some (_, seq) =>
          if lock_free w then
            let '(self', evs, _) := receive_ack (arq w) seq in
            Some (mkWorld self' (main w) (senders w) (delete k (sleepers w))
                          (timers w) (draws w), evs)
          else None
      end
  | FireTimer k =>
      match timers w !! k with
      | None => None
      | Some seq =>
          if lock_free w then
            let '(evs, frames, _) := timer_thread (arq w) seq in
            Some (mkWorld (arq w) (main w) (senders w ++ frames) (sleepers w)
                          (delete k (timers w)) (draws w), evs)
          else None
      end
  end.

(** A schedule run from [w]: the world reached and everything printed. *)
Fixpoint exec (cfg : Config) (src : nat -> Q) (w : World) (sched : list action)
  : option (World * list event) :=
  match sched with
  | [] => Some (w, [])
  | a :: sched' =>
      match step cfg src w a with
      | None => None
      | Some (w', evs) =>
          match exec cfg src w' sched' with
          | None => None
          | Some (w'', evs') => Some (w'', evs ++ evs')
          end
      end
  end.

(** [arq = SelectiveRepeatARQ(total, window); arq.run()] before its first
    step; [main()] is [start TOTAL_FRAMES WINDOW_SIZE]. *)
Definition start (total window : Z) : World :=
  mkWorld (new_arq total window) AtStart [] [] [] 0.

Inductive reachable (cfg : Config) (src : nat -> Q) (total window : Z) : World -> Prop :=
| reach_start : reachable cfg src total window (start total window)
| reach_step w a w' evs :
    reachable cfg src total window w ->
    step cfg src w a = Some (w', evs) ->
    reachable cfg src total window w'.

(** ** Invariants and case analyses used below *)

(** What [__init__] establishes and every call keeps: one slot per frame,
    and [base] sitting on the first slot that is still [False]. *)
Record arq_inv (self : SelectiveRepeatARQ) : Prop := mkArqInv {
  inv_length : length (ack_received self) = Z.to_nat (total_frames self);
  inv_base : 0 <= base self;
  inv_below : forall i, 0 <= i < base self ->
    ack_received self !! Z.to_nat i = Some true;
  inv_at : base self < total_frames self ->
    ack_received self !! Z.to_nat (base self) = Some false
}.

(** The three ways through [receive_ack]. *)
Inductive receive_ack_path (self : SelectiveRepeatARQ) (seq : Z)
  : SelectiveRepeatARQ * list event * completion -> Prop :=
| path_index_error :
    getitem (ack_received self) seq = None ->
    receive_ack_path self seq (self, [], Raises IndexError)
| path_duplicate :
    getitem (ack_received self) seq = Some true ->
    receive_ack_path self seq (self, [], Normal)
| path_fresh acks b c :
    getitem (ack_received self) seq = Some false ->
    setitem (ack_received self) seq true = Some acks ->
    slide_window (total_frames self) acks (base self) = (b, c) ->
    receive_ack_path self seq
      (mkARQ (total_frames self) (window_size self) b (next_seq_num self) acks,
       [EvAck seq], c).

(** What holds of a run of [SelectiveRepeatARQ(total, window)] whenever a
    thread can be scheduled. *)
Record world_inv (total window : Z) (w : World) : Prop := mkWorldInv {
  wi_total : total_frames (arq w) = total;
  wi_window : window_size (arq w) = window;
  wi_arq : arq_inv (arq w);
  wi_order : base (arq w) <= next_seq_num (arq w) <= Z.max 0 total;
  wi_outstanding : next_seq_num (arq w) - base (arq w) <= Z.max 0 window;
  wi_acked : forall k, ack_received (arq w) !! k = Some true ->
    Z.of_nat k < next_seq_num (arq w);
  wi_senders : Forall (fun f => 0 <= seq_num f < next_seq_num (arq w)) (senders w);
  wi_sleepers : Forall (fun p => 0 <= snd p < next_seq_num (arq w)) (sleepers w);
  wi_timers : Forall (fun s => 0 <= s < next_seq_num (arq w)) (timers w)
}.

(** [b] is the smallest index whose slot is [False], or [total_frames] when
    every slot is [True]. *)
Definition first_unacked (self : SelectiveRepeatARQ) (b : Z) : Prop :=
  0 <= b <= total_frames self
  /\ (forall i, 0 <= i < b -> getitem (ack_received self) i = Some true)
  /\ (b < total_frames self -> getitem (ack_received self) b = Some false).

(** Two random sources for examples: with every draw at one half nothing is
    lost or reordered under [module_config]; with every draw at zero every
    frame is lost. *)
Definition steady : nat -> Q := fun _ => 1 # 2.
Definition lossy : nat -> Q := fun _ => 0 # 1.

(** The main thread's first steps of a run: banner, outer test, lock taken,
    [n] frames admitted. *)
Definition sending_schedule (n : nat) : list action :=
  RunMain :: RunMain :: RunMain :: replicate n RunMain.

(** The objects a program can hold: what [__init__] returns, after any
    number of turns of the sending loop and of calls of [receive_ack], with
    any integer argument and whatever way the call ends. *)
Inductive built (total window : Z) : SelectiveRepeatARQ -> Prop :=
| built_init :
    built total window (new_arq total window)
| built_send self frame self' :
    built total window self ->
    send_in_window self = Some (frame, self') ->
    built total window self'
| built_receive_ack self seq self' evs c :
    built total window self ->
    receive_ack self seq = (self', evs, c) ->
    built total window self'.

(** The world a schedule leads to from the start of a run (the start itself
    if the schedule names a thread that cannot run). *)
Definition world_after (cfg : Config) (src : nat -> Q) (total window : Z)
           (sched : list action) : World :=
  match exec cfg src (start total window) sched with
  | Some (w, _) => w
  | None => start total window
  end.

(** Runs of [SelectiveRepeatARQ(1, 1)]: frame 0 is admitted and the lock
    released; then either its acknowledgement arrives ([acked_world]), or it
    is lost ([lost_world]), times out, and the retransmission is lost too
    ([stuck_world]). *)
Definition one_frame_sent : list action := sending_schedule 1 ++ [RunMain].

Definition acked_world : World :=
  world_after module_config steady 1 1 (one_frame_sent ++ [RunSender 0; WakeSleeper 0])%nat.

Definition lost_world : World :=
  world_after module_config lossy 1 1 (one_frame_sent ++ [RunSender 0])%nat.

Definition stuck_world : World :=
  world_after module_config lossy 1 1
    (one_frame_sent ++ [RunSender 0; FireTimer 0; RunSender 0])%nat.

(** [SelectiveRepeatARQ(1, 1)] with frame 0 through the channel and its
    acknowledgement about to be delivered. *)
Definition ack_pending_world : World :=
  world_after module_config steady 1 1 (one_frame_sent ++ [RunSender 0])%nat.

(** The channel as section 4.1 of the specification words it, for
    comparison with [send_frame]: the loss decision is drawn first, the
    delay only for a frame that is not lost. *)
Definition transmit_as_specified (cfg : Config) (frame : Frame)
  : Rand (list event * outcome) :=
  r ← random;
  if Qltb r (LOSS_PROBABILITY cfg) then
    mret ([EvLoss (seq_num frame)], Dropped)
  else
    delay ← uniform (fst (DELAY_RANGE cfg)) (snd (DELAY_RANGE cfg));
    r' ← random;
    if Qltb r' (REORDER_PROBABILITY cfg) then
      extra ← uniform 1 2;
      mret ([EvReorder (seq_num frame)], SleepThenAck (delay + extra)%Q (seq_num frame))
    else
      mret ([], SleepThenAck delay (seq_num frame)).

(** A random source whose first draw is low and whose later draws are high. *)
Definition low_then_high : nat -> Q :=
  fun i => match i with O => 1 # 10 | S _ => 9 # 10 end.

(** A random source under which a frame is delivered but reordered: the
    third draw of a call is low, the others are one half. *)
Definition reordering : nat -> Q :=
  fun i => match i with 2%nat => 0 # 1 | _ => 1 # 2 end.

(** [stuck_world] with the main thread at another point of [run]. *)
Definition stuck_at (pc : main_pc) : World :=
  mkWorld (arq stuck_world) pc [] [] [] (draws stuck_world).

Definition looping (pc : main_pc) : bool :=
  match pc with AtOuter | AtLock | InLock => true | AtStart | Finished => false end.

(** ** Reading what a run printed *)

(** The frames of the [SEND], [ACK RECEIVED] and [TIMEOUT] lines, in the
    order printed. *)
Definition sent (evs : list event) : list Z :=
  omap (fun e => match e with EvSend seq => Some seq | _ => None end) evs.

Definition acked (evs : list event) : list Z :=
  omap (fun e => match e with EvAck seq => Some seq | _ => None end) evs.

Definition timed_out (evs : list event) : list Z :=
  omap (fun e => match e with EvTimeout seq => Some seq | _ => None end) evs.

(** The steps of [step], one case per line of code that can be reached. *)
Inductive transition (cfg : Config) (src : nat -> Q) (w : World)
  : action -> World -> list event -> Prop :=
| tr_banner :
    main w = AtStart ->
    transition cfg src w RunMain
      (mkWorld (arq w) AtOuter (senders w) (sleepers w) (timers w) (draws w)) [EvStart]
| tr_continue :
    main w = AtOuter -> unfinished (arq w) = true ->
    transition cfg src w RunMain
      (mkWorld (arq w) AtLock (senders w) (sleepers w) (timers w) (draws w)) []
| tr_finish :
    main w = AtOuter -> unfinished (arq w) = false ->
    transition cfg src w RunMain
      (mkWorld (arq w) Finished (senders w) (sleepers w) (timers w) (draws w)) [EvDone]
| tr_lock :
    main w = AtLock ->
    transition cfg src w RunMain
      (mkWorld (arq w) InLock (senders w) (sleepers w) (timers w) (draws w)) []
| tr_send :
    main w = InLock -> window_open (arq w) = true ->
    transition cfg src w RunMain
      (mkWorld (set_next_seq_num (arq w) (next_seq_num (arq w) + 1)) InLock
               (senders w ++ [make_frame (next_seq_num (arq w))]) (sleepers w)
               (timers w ++ [next_seq_num (arq w)]) (draws w))
      [EvSend (next_seq_num (arq w))]
| tr_release :
    main w = InLock -> window_open (arq w) = false ->
    transition cfg src w RunMain
      (mkWorld (arq w) AtOuter (senders w) (sleepers w) (timers w) (draws w)) []
| tr_lost k frame i :
    senders w !! k = Some frame ->
    send_frame cfg frame src (draws w) = ([EvLoss (seq_num frame)], Dropped, i) ->
    transition cfg src w (RunSender k)
      (mkWorld (arq w) (main w) (delete k (senders w)) (sleepers w) (timers w) i)
      [EvLoss (seq_num frame)]
| tr_through k frame evs d i :
    senders w !! k = Some frame ->
    send_frame cfg frame src (draws w) = (evs, SleepThenAck d (seq_num frame), i) ->
    evs = [] \/ evs = [EvReorder (seq_num frame)] ->
    transition cfg src w (RunSender k)
      (mkWorld (arq w) (main w) (delete k (senders w))
               (sleepers w ++ [(d, seq_num frame)]) (timers w) i)
      evs
| tr_duplicate k d seq c :
    sleepers w !! k = Some (d, seq) -> lock_free w = true ->
    receive_ack (arq w) seq = (arq w, [], c) ->
    transition cfg src w (WakeSleeper k)
      (mkWorld (arq w) (main w) (senders w) (delete k (sleepers w)) (timers w) (draws w))
      []
| tr_ack k d seq self' c :
    sleepers w !! k = Some (d, seq) -> lock_free w = true ->
    receive_ack (arq w) seq = (self', [EvAck seq], c) ->
    getitem (ack_received (arq w)) seq = Some false ->
    setitem (ack_received (arq w)) seq true = Some (ack_received self') ->
    transition cfg src w (WakeSleeper k)
      (mkWorld self' (main w) (senders w) (delete k (sleepers w)) (timers w) (draws w))
      [EvAck seq]
| tr_expire_acked k seq c :
    timers w !! k = Some seq -> lock_free w = true ->
    getitem (ack_received (arq w)) seq <> Some false ->
    timer_thread (arq w) seq = ([], [], c) ->
    transition cfg src w (FireTimer k)
      (mkWorld (arq w) (main w) (senders w) (sleepers w) (delete k (timers w)) (draws w))
      []
| tr_retransmit k seq :
    timers w !! k = Some seq -> lock_free w = true ->
    getitem (ack_received (arq w)) seq = Some false ->
    transition cfg src w (FireTimer k)
      (mkWorld (arq w) (main w) (senders w ++ [make_frame seq]) (sleepers w)
               (delete k (timers w)) (draws w))
      [EvTimeout seq].

(** * Properties *)

(** ** Python indexing *)

Module PyFacts.

Lemma index_nonneg (n : nat) (i : Z) :
  0 <= i < Z.of_nat n -> index n i = Some (Z.to_nat i).
Proof.
  intros [H0 H1]. unfold index.
  apply Z.leb_le in H0. apply Z.ltb_lt in H1. now rewrite H0, H1.
Qed.

Lemma index_negative (n : nat) (i : Z) :
  - Z.of_nat n <= i < 0 -> index n i = Some (Z.to_nat (Z.of_nat n + i)).
Proof.
  intros [H0 H1]. unfold index.
  replace (0 <=? i) with false by (symmetry; apply Z.leb_gt; lia).
  apply Z.leb_le in H0. apply Z.ltb_lt in H1. now rewrite H0, H1.
Qed.

Lemma index_out_of_range (n : nat) (i : Z) :
  Z.of_nat n <= i \/ i < - Z.of_nat n -> index n i = None.
Proof.
  intros H. unfold index.
  destruct (Z.leb_spec 0 i), (Z.ltb_spec i (Z.of_nat n)),
    (Z.leb_spec (- Z.of_nat n) i), (Z.ltb_spec i 0); simpl; try reflexivity; lia.
Qed.

Lemma index_lt (n : nat) (i : Z) (k : nat) : index n i = Some k -> (k < n)%nat.
Proof.
  unfold index.
  destruct (Z.leb_spec 0 i), (Z.ltb_spec i (Z.of_nat n)),
    (Z.leb_spec (- Z.of_nat n) i), (Z.ltb_spec i 0); simpl;
    intros [= <-]; lia.
Qed.

(** From zero upwards [l[i]] is the plain lookup: both fail past the end. *)
Lemma getitem_nonneg {A} (l : list A) (i : Z) :
  0 <= i -> getitem l i = l !! Z.to_nat i.
Proof.
  intros H. unfold getitem.
  destruct (Z.lt_ge_cases i (Z.of_nat (length l))) as [Hlt | Hge].
  - now rewrite index_nonneg by lia.
  - rewrite index_out_of_range by lia.
    symmetry. apply lookup_ge_None. lia.
Qed.

Lemma setitem_length {A} (l l' : list A) (i : Z) (x : A) :
  setitem l i x = Some l' -> length l' = length l.
Proof.
  unfold setitem. destruct (index (length l) i); intros [= <-].
  apply length_insert.
Qed.

Lemma setitem_same {A} (l l' : list A) (i : Z) (x : A) :
  setitem l i x = Some l' -> getitem l' i = Some x.
Proof.
  intros H. pose proof (setitem_length _ _ _ _ H) as Hlen.
  unfold setitem in H. unfold getitem. rewrite Hlen.
  destruct (index (length l) i) as [k|] eqn:Hk; [| discriminate].
  injection H as <-. apply list_lookup_insert_eq. eauto using index_lt.
Qed.

(** Storing [True] leaves every [True] of the list in place. *)
Lemma setitem_true_keeps (l l' : list bool) (i : Z) (k : nat) :
  setitem l i true = Some l' -> l !! k = Some true -> l' !! k = Some true.
Proof.
  unfold setitem. destruct (index (length l) i) as [j|] eqn:Hj; [| discriminate].
  intros [= <-] Hk. destruct (decide (j = k)) as [-> | Hne].
  - apply list_lookup_insert_eq. eauto using index_lt.
  - now rewrite list_lookup_insert_ne.
Qed.

(** Storing [True] only changes the slot it is stored in. *)
Lemma setitem_true_new (l l' : list bool) (i : Z) (k : nat) :
  setitem l i true = Some l' -> l' !! k = Some true ->
  l !! k = Some true \/ index (length l) i = Some k.
Proof.
  unfold setitem. destruct (index (length l) i) as [j|] eqn:Hj; [| discriminate].
  intros [= <-] Hk. destruct (decide (j = k)) as [-> | Hne]; [now right |].
  left. now rewrite list_lookup_insert_ne in Hk.
Qed.

Lemma getitem_setitem_defined {A} (l : list A) (i : Z) (x y : A) :
  getitem l i = Some x -> exists l', setitem l i y = Some l'.
Proof.
  unfold getitem, setitem. destruct (index (length l) i); [eauto | discriminate].
Qed.

End PyFacts.

Import PyFacts.

(** ** The sliding loop *)

(** [slide_window] satisfies the equation of the [while] loop it stands for:
    the fuel it starts with never runs out. *)
Lemma slide_fuel_irrelevant (total : Z) (acks : list bool) (fuel1 : nat) :
  forall fuel2 b,
    (Z.to_nat (total - b) <= fuel1)%nat -> (Z.to_nat (total - b) <= fuel2)%nat ->
    slide fuel1 total acks b = slide fuel2 total acks b.
Proof.
  induction fuel1 as [| fuel1 IH]; intros fuel2 b H1 H2.
  - destruct fuel2; simpl; destruct (Z.ltb_spec b total); try reflexivity; lia.
  - destruct fuel2 as [| fuel2]; simpl.
    + destruct (Z.ltb_spec b total); [lia | reflexivity].
    + destruct (Z.ltb_spec b total); [| reflexivity].
      destruct (getitem acks b) as [[|]|]; try reflexivity.
      apply IH; lia.
Qed.

Lemma slide_fuel_enough (total : Z) (acks : list bool) (fuel : nat) (b : Z) :
  (Z.to_nat (total - b) <= fuel)%nat ->
  slide fuel total acks b = slide_window total acks b.
Proof.
  intros H. unfold slide_window. apply slide_fuel_irrelevant; lia.
Qed.

Lemma slide_window_eq (total : Z) (acks : list bool) (b : Z) :
  slide_window total acks b =
    if b <? total then
      match getitem acks b with
      | None => (b, Raises IndexError)
      | Some false => (b, Normal)
      | Some true => slide_window total acks (b + 1)
      end
    else (b, Normal).
Proof.
  unfold slide_window at 1.
  destruct (Z.to_nat (total - b)) as [| m] eqn:Hm.
  - simpl. destruct (Z.ltb_spec b total); [lia | reflexivity].
  - simpl. destruct (b <? total); [| reflexivity].
    destruct (getitem acks b) as [[|]|]; try reflexivity.
    apply slide_fuel_enough. lia.
Qed.

(** Where the loop stops when the table has one slot per frame. *)
Lemma slide_window_spec (total : Z) (acks : list bool) :
  length acks = Z.to_nat total ->
  forall b, 0 <= b ->
    exists b',
      slide_window total acks b = (b', Normal)
      /\ b <= b'
      /\ (b' <= total \/ b' = b)
      /\ (forall i, b <= i < b' -> acks !! Z.to_nat i = Some true)
      /\ (b' < total -> acks !! Z.to_nat b' = Some false).
Proof.
  intros Hlen b.
  remember (Z.to_nat (total - b)) as n eqn:Hn.
  revert b Hn. induction n as [| n IH]; intros b Hn Hb; rewrite slide_window_eq.
  - destruct (Z.ltb_spec b total); [lia |].
    exists b. repeat split; auto; lia.
  - destruct (Z.ltb_spec b total); [| lia].
    rewrite getitem_nonneg by lia.
    destruct (acks !! Z.to_nat b) as [[|]|] eqn:Hget.
    + destruct (IH (b + 1)) as (b' & Heq & Hle & Hup & Htrue & Hfalse); [lia | lia |].
      exists b'. repeat split; auto; try lia.
      intros i Hi. destruct (decide (i = b)) as [-> | Hne]; [assumption |].
      apply Htrue. lia.
    + exists b. repeat split; auto; lia.
    + apply lookup_ge_None in Hget. lia.
Qed.

(** ** The sender object between calls *)

Lemma init_inv (total window : Z) : arq_inv (new_arq total window).
Proof.
  split; simpl.
  - apply length_replicate.
  - lia.
  - intros i Hi. lia.
  - intros H. apply lookup_replicate. split; [reflexivity | lia].
Qed.

Lemma receive_ack_paths (self : SelectiveRepeatARQ) (seq : Z) :
  receive_ack_path self seq (receive_ack self seq).
Proof.
  unfold receive_ack.
  destruct (getitem (ack_received self) seq) as [[|]|] eqn:Hget.
  - now apply path_duplicate.
  - destruct (getitem_setitem_defined _ _ _ true Hget) as [acks Hset].
    rewrite Hset.
    destruct (slide_window (total_frames self) acks (base self)) as [b c] eqn:Hs.
    exact (path_fresh self seq acks b c Hget Hset Hs).
  - now apply path_index_error.
Qed.

(** A call of [receive_ack] on a well-formed object: nothing but [base] and
    the table changes, [base] does not go back, no [True] is lost, and the
    object is well formed again. *)
Lemma receive_ack_keeps (self self' : SelectiveRepeatARQ) (seq : Z)
      (evs : list event) (c : completion) :
  arq_inv self ->
  receive_ack self seq = (self', evs, c) ->
  arq_inv self'
  /\ total_frames self' = total_frames self
  /\ window_size self' = window_size self
  /\ next_seq_num self' = next_seq_num self
  /\ base self <= base self'
  /\ (forall k, ack_received self !! k = Some true ->
                ack_received self' !! k = Some true)
  /\ (forall k, ack_received self' !! k = Some true ->
                ack_received self !! k = Some true
                \/ index (length (ack_received self)) seq = Some k)
  /\ (forall i, base self <= i < base self' ->
                ack_received self' !! Z.to_nat i = Some true)
  /\ (c = Normal \/ (self' = self /\ evs = [])).
Proof.
  intros Hinv Heq. pose proof (receive_ack_paths self seq) as Hp.
  rewrite Heq in Hp.
  inversion Hp as [Hget | Hget | acks b c' Hget Hset Hslide]; subst; clear Hp.
  - repeat split; try apply Hinv; auto; try lia; intros i Hi; lia.
  - repeat split; try apply Hinv; auto; try lia; intros i Hi; lia.
  - destruct Hinv as [Hlen Hb Hbelow Hat].
    pose proof (setitem_length _ _ _ _ Hset) as Hlen'.
    destruct (slide_window_spec (total_frames self) acks) with (b := base self)
      as (b' & Hs & Hle & Hup & Htrue & Hfalse); [congruence | assumption |].
    rewrite Hslide in Hs. injection Hs as -> ->.
    simpl. split; [split; simpl; auto; try congruence; try lia |].
    + intros i Hi. destruct (Z.lt_ge_cases i (base self)).
      * eapply setitem_true_keeps; eauto. apply Hbelow. lia.
      * apply Htrue. lia.
    + repeat split; auto.
      * intros k Hk. eapply setitem_true_keeps; eauto.
      * intros k Hk. eapply setitem_true_new; eauto.
Qed.

Lemma send_in_window_keeps (self self' : SelectiveRepeatARQ) (frame : Frame) :
  arq_inv self ->
  send_in_window self = Some (frame, self') ->
  arq_inv self'
  /\ seq_num frame = next_seq_num self
  /\ self' = set_next_seq_num self (next_seq_num self + 1)
  /\ next_seq_num self < base self + window_size self
  /\ next_seq_num self < total_frames self.
Proof.
  intros Hinv. unfold send_in_window, window_open.
  destruct (Z.ltb_spec (next_seq_num self) (base self + window_size self));
    destruct (Z.ltb_spec (next_seq_num self) (total_frames self)); simpl;
    intros [= <- <-].
  repeat split; simpl; auto; apply Hinv.
Qed.

(** ** Runs *)

Lemma start_inv (total window : Z) : world_inv total window (start total window).
Proof.
  split; simpl; auto; try lia.
  - apply init_inv.
  - intros k Hk. apply lookup_replicate in Hk. destruct Hk; discriminate.
Qed.

(** An acknowledgement for a frame that was sent goes through normally. *)
Lemma receive_ack_sent (total window : Z) (w : World) (seq : Z) :
  world_inv total window w ->
  0 <= seq < next_seq_num (arq w) ->
  exists self' evs,
    receive_ack (arq w) seq = (self', evs, Normal)
    /\ base self' <= next_seq_num self'
    /\ (forall k, ack_received self' !! k = Some true ->
                  Z.of_nat k < next_seq_num self').
Proof.
  intros Hw Hseq.
  destruct (receive_ack (arq w) seq) as [[self' evs] c] eqn:Heq.
  destruct (receive_ack_keeps _ _ _ _ _ (wi_arq _ _ _ Hw) Heq)
    as (Hinv' & Ht & Hwin & Hn & Hb & Hkeep & Hnew & Hrun & Hc).
  assert (Hidx : index (length (ack_received (arq w))) seq = Some (Z.to_nat seq)).
  { apply index_nonneg. rewrite (inv_length _ (wi_arq _ _ _ Hw)).
    pose proof (wi_order _ _ _ Hw). rewrite (wi_total _ _ _ Hw). lia. }
  assert (Hacked : forall k, ack_received self' !! k = Some true ->
                             Z.of_nat k < next_seq_num self').
  { intros k Hk. rewrite Hn. destruct (Hnew k Hk) as [Hold | Hk'].
    - now apply (wi_acked _ _ _ Hw).
    - rewrite Hidx in Hk'. injection Hk' as <-. lia. }
  assert (Hc' : c = Normal).
  { destruct Hc as [-> | [-> ->]]; [reflexivity |].
    unfold receive_ack, getitem in Heq. rewrite Hidx in Heq.
    destruct (ack_received (arq w) !! Z.to_nat seq) as [[|]|] eqn:Hl.
    - now injection Heq as <-.
    - unfold setitem in Heq. rewrite Hidx in Heq.
      destruct (slide_window _ _ _) in Heq. discriminate.
    - apply lookup_ge_None in Hl. apply index_lt in Hidx. lia. }
  subst c. exists self', evs. repeat split; auto.
  destruct (Z.eq_dec (base self') (base (arq w))) as [-> | Hne].
  - rewrite Hn. apply (wi_order _ _ _ Hw).
  - specialize (Hrun (base self' - 1)). specialize (Hacked (Z.to_nat (base self' - 1))).
    pose proof (inv_base _ (wi_arq _ _ _ Hw)).
    assert (Z.of_nat (Z.to_nat (base self' - 1)) < next_seq_num self')
      by (apply Hacked, Hrun; lia).
    lia.
Qed.

Lemma step_main_inv (total window : Z) (w w' : World) (evs : list event) :
  world_inv total window w ->
  step_main w = Some (w', evs) ->
  world_inv total window w'.
Proof.
  intros Hw. unfold step_main.
  destruct (main w).
  - intros [= <- <-]. destruct Hw. now split.
  - destruct (unfinished (arq w)); intros [= <- <-]; destruct Hw; now split.
  - intros [= <- <-]. destruct Hw. now split.
  - destruct (send_in_window (arq w)) as [[frame self'] |] eqn:Ha.
    + intros [= <- <-].
      destruct (send_in_window_keeps _ _ _ (wi_arq _ _ _ Hw) Ha) as (Hinv' & Hf & -> & H1 & H2).
      destruct Hw as [Ht Hwin Hinv Hord Hout Hack Hs Hsl Htm].
      rewrite Ht in H2. rewrite Hwin in H1.
      split; simpl; auto; try lia.
      * intros k Hk. specialize (Hack k Hk). lia.
      * apply Forall_app. split.
        -- eapply Forall_impl; [exact Hs |]. simpl. intros; lia.
        -- apply Forall_singleton. rewrite Hf.
           pose proof (inv_base _ Hinv). lia.
      * eapply Forall_impl; [exact Hsl |]. simpl. intros; lia.
      * apply Forall_app. split.
        -- eapply Forall_impl; [exact Htm |]. simpl. intros; lia.
        -- apply Forall_singleton. rewrite Hf.
           pose proof (inv_base _ Hinv). lia.
    + intros [= <- <-]. destruct Hw. now split.
  - discriminate.
Qed.

Lemma step_inv (cfg : Config) (src : nat -> Q) (total window : Z)
      (w w' : World) (a : action) (evs : list event) :
  world_inv total window w ->
  step cfg src w a = Some (w', evs) ->
  world_inv total window w'.
Proof.
  intros Hw. destruct a as [| k | k | k]; simpl.
  - now apply step_main_inv.
  - destruct (senders w !! k) as [frame |] eqn:Hk; [| discriminate].
    destruct (send_frame cfg frame src (draws w)) as [[evs0 out] i] eqn:Hsf.
    intros [= <- <-].
    assert (Hseq : 0 <= seq_num frame < next_seq_num (arq w)).
    { pose proof (wi_senders _ _ _ Hw) as Hs. rewrite Forall_lookup in Hs. eauto. }
    assert (Hout : match out with
                   | Dropped => True
                   | SleepThenAck _ seq => seq = seq_num frame
                   end).
    { unfold send_frame, uniform, random, mbind, mret, rand_bind, rand_ret in Hsf.
      repeat match type of Hsf with
             | context [if ?c then _ else _] => destruct c
             end; injection Hsf as <- <- <-; auto. }
    destruct Hw as [Ht Hwin Hinv Hord Hwo Hack Hs Hsl Htm].
    split; simpl; auto.
    + now apply Forall_delete.
    + apply Forall_app. split; [assumption |].
      destruct out as [| d seq]; [constructor |].
      apply Forall_singleton. simpl. now subst.
  - destruct (sleepers w !! k) as [[d seq] |] eqn:Hk; [| discriminate].
    destruct (lock_free w); [| discriminate].
    destruct (receive_ack (arq w) seq) as [[self' evs0] c] eqn:Hra.
    intros [= <- <-].
    assert (Hseq : 0 <= seq < next_seq_num (arq w)).
    { pose proof (wi_sleepers _ _ _ Hw) as Hs. rewrite Forall_lookup in Hs.
      apply (Hs k (d, seq) Hk). }
    destruct (receive_ack_sent _ _ _ _ Hw Hseq) as (s1 & e1 & Heq & Hb' & Hack').
    rewrite Hra in Heq. injection Heq as <- <- ->.
    destruct (receive_ack_keeps _ _ _ _ _ (wi_arq _ _ _ Hw) Hra)
      as (Hinv' & Ht' & Hwin' & Hn & Hb & _).
    destruct Hw as [Ht Hwin Hinv Hord Hwo Hack Hs Hsl Htm].
    rewrite Hn in Hack', Hb'.
    split; simpl; rewrite ?Hn; auto; try congruence; try lia.
    now apply Forall_delete.
  - destruct (timers w !! k) as [seq |] eqn:Hk; [| discriminate].
    destruct (lock_free w); [| discriminate].
    destruct (timer_thread (arq w) seq) as [[evs0 frames] c] eqn:Htt.
    intros [= <- <-].
    assert (Hseq : 0 <= seq < next_seq_num (arq w)).
    { pose proof (wi_timers _ _ _ Hw) as Hs. rewrite Forall_lookup in Hs. eauto. }
    assert (Hfr : Forall (fun f => 0 <= seq_num f < next_seq_num (arq w)) frames).
    { unfold timer_thread in Htt.
      destruct (getitem (ack_received (arq w)) seq) as [[|]|];
        injection Htt as <- <- <-; repeat constructor; simpl; lia. }
    destruct Hw as [Ht Hwin Hinv Hord Hwo Hack Hs Hsl Htm].
    split; simpl; auto.
    + apply Forall_app. now split.
    + now apply Forall_delete.
Qed.

Lemma reachable_inv (cfg : Config) (src : nat -> Q) (total window : Z) (w : World) :
  reachable cfg src total window w ->
  world_inv total window w.
Proof.
  intros Hr. induction Hr as [| w a w' evs Hr IH Hstep].
  - apply start_inv.
  - eapply step_inv; eauto.
Qed.

Lemma exec_reachable (cfg : Config) (src : nat -> Q) (total window : Z)
      (sched : list action) :
  forall w w' evs,
    reachable cfg src total window w ->
    exec cfg src w sched = Some (w', evs) ->
    reachable cfg src total window w'.
Proof.
  induction sched as [| a sched IH]; intros w w' evs Hr; simpl.
  - now intros [= <- <-].
  - destruct (step cfg src w a) as [[w1 evs1] |] eqn:Hstep; [| discriminate].
    destruct (exec cfg src w1 sched) as [[w2 evs2] |] eqn:Hexec; [| discriminate].
    intros [= <- <-]. eapply IH; [| exact Hexec].
    eapply reach_step; eauto.
Qed.

Lemma world_after_reachable (cfg : Config) (src : nat -> Q) (total window : Z)
      (sched : list action) :
  reachable cfg src total window (world_after cfg src total window sched).
Proof.
  unfold world_after.
  destruct (exec cfg src (start total window) sched) as [[w evs] |] eqn:He.
  - eapply exec_reachable; [apply reach_start | exact He].
  - apply reach_start.
Qed.

Ltac window_cases H :=
  refine (conj _ (conj _ (conj _ _))); [ | | | intros H].

(** What one scheduled step can do to the window. *)
Lemma step_window (cfg : Config) (src : nat -> Q) (total window : Z)
      (w w' : World) (a : action) (evs : list event) :
  world_inv total window w ->
  step cfg src w a = Some (w', evs) ->
  base (arq w) <= base (arq w')
  /\ next_seq_num (arq w) <= next_seq_num (arq w')
  /\ (forall k, ack_received (arq w) !! k = Some true ->
                ack_received (arq w') !! k = Some true)
  /\ ((next_seq_num (arq w') <> next_seq_num (arq w)
       \/ exists seq, In (EvSend seq) evs) ->
      a = RunMain
      /\ main w = InLock
      /\ next_seq_num (arq w) < base (arq w) + window_size (arq w)
      /\ next_seq_num (arq w) < total_frames (arq w)
      /\ next_seq_num (arq w') = next_seq_num (arq w) + 1
      /\ evs = [EvSend (next_seq_num (arq w))]).
Proof.
  intros Hw. destruct a as [| k | k | k]; simpl.
  - unfold step_main. destruct (main w) eqn:Hm.
    + intros [= <- <-]; simpl. window_cases Hadm; auto; try lia.
      destruct Hadm as [Hn | [seq [Hin | []]]]; [lia | discriminate].
    + destruct (unfinished (arq w)); intros [= <- <-]; simpl;
        (window_cases Hadm; auto; try lia);
        destruct Hadm as [Hn | [seq Hin]]; try lia;
        destruct Hin as [Hin | []]; discriminate.
    + intros [= <- <-]; simpl. window_cases Hadm; auto; try lia.
      destruct Hadm as [Hn | [seq []]]; lia.
    + destruct (send_in_window (arq w)) as [[frame self'] |] eqn:Ha.
      * intros [= <- <-]; simpl.
        destruct (send_in_window_keeps _ _ _ (wi_arq _ _ _ Hw) Ha) as (_ & Hf & -> & H1 & H2).
        simpl. rewrite Hf. window_cases Hadm; auto; try lia.
        repeat split; auto.
      * intros [= <- <-]; simpl. window_cases Hadm; auto; try lia.
        destruct Hadm as [Hn | [seq []]]; lia.
    + discriminate.
  - destruct (senders w !! k) as [frame |]; [| discriminate].
    destruct (send_frame cfg frame src (draws w)) as [[evs0 out] i] eqn:Hsf.
    intros [= <- <-]; simpl.
    assert (Hev : forall seq, ~ In (EvSend seq) evs0).
    { unfold send_frame, uniform, random, mbind, mret, rand_bind, rand_ret in Hsf.
      repeat match type of Hsf with
             | context [if ?c then _ else _] => destruct c
             end; injection Hsf as <- <- <-; intros seq Hin; simpl in Hin;
        try destruct Hin as [Hin | []]; try discriminate; assumption. }
    window_cases Hadm; auto; try lia.
    destruct Hadm as [Hn | [seq Hin]]; [lia | exfalso; eapply Hev; eauto].
  - destruct (sleepers w !! k) as [[d seq] |]; [| discriminate].
    destruct (lock_free w); [| discriminate].
    destruct (receive_ack (arq w) seq) as [[self' evs0] c] eqn:Hra.
    intros [= <- <-]; simpl.
    destruct (receive_ack_keeps _ _ _ _ _ (wi_arq _ _ _ Hw) Hra)
      as (_ & _ & _ & Hn & Hb & Hkeep & _).
    assert (Hev : forall s, ~ In (EvSend s) evs0).
    { pose proof (receive_ack_paths (arq w) seq) as Hp. rewrite Hra in Hp.
      inversion Hp; subst; intros s Hin; simpl in Hin;
        try destruct Hin as [Hin | []]; try discriminate; assumption. }
    window_cases Hadm; auto; try lia.
    destruct Hadm as [Hne | [s Hin]]; [lia | exfalso; eapply Hev; eauto].
  - destruct (timers w !! k) as [seq |]; [| discriminate].
    destruct (lock_free w); [| discriminate].
    destruct (timer_thread (arq w) seq) as [[evs0 frames] c] eqn:Htt.
    intros [= <- <-]; simpl.
    assert (Hev : forall s, ~ In (EvSend s) evs0).
    { unfold timer_thread in Htt.
      destruct (getitem (ack_received (arq w)) seq) as [[|]|];
        injection Htt as <- <- <-; intros s Hin; simpl in Hin;
        try destruct Hin as [Hin | []]; try discriminate; assumption. }
    window_cases Hadm; auto; try lia.
    destruct Hadm as [Hne | [s Hin]]; [lia | exfalso; eapply Hev; eauto].
Qed.

(** C1. In every state a run of [SelectiveRepeatARQ(total, window)] reaches
    (zero or more frames, a window of zero or more), [0 <= base <=
    next_seq_num <= total_frames] and [next_seq_num - base <= window_size];
    no step lowers [base] or [next_seq_num]; the table starts all [False]
    and no step turns a [True] back; and when [next_seq_num - base ==
    window_size] no step admits a frame. *)
Theorem window_state_invariant (cfg : Config) (src : nat -> Q) (total window : Z) :
  0 <= total -> 0 <= window ->
  ack_received (arq (start total window)) = replicate (Z.to_nat total) false
  /\ forall w, reachable cfg src total window w ->
       (0 <= base (arq w) <= next_seq_num (arq w)
        /\ next_seq_num (arq w) <= total_frames (arq w)
        /\ next_seq_num (arq w) - base (arq w) <= window_size (arq w))
       /\ forall a w' evs, step cfg src w a = Some (w', evs) ->
            base (arq w) <= base (arq w')
            /\ next_seq_num (arq w) <= next_seq_num (arq w')
            /\ (forall k, ack_received (arq w) !! k = Some true ->
                          ack_received (arq w') !! k = Some true)
            /\ (next_seq_num (arq w) - base (arq w) = window_size (arq w) ->
                next_seq_num (arq w') = next_seq_num (arq w)
                /\ forall seq, ~ In (EvSend seq) evs).
Proof.
  intros Ht Hwin. split; [reflexivity |].
  intros w Hr. pose proof (reachable_inv _ _ _ _ _ Hr) as Hw.
  split.
  - pose proof (inv_base _ (wi_arq _ _ _ Hw)).
    pose proof (wi_order _ _ _ Hw). pose proof (wi_outstanding _ _ _ Hw).
    rewrite (wi_total _ _ _ Hw), (wi_window _ _ _ Hw). lia.
  - intros a w' evs Hstep.
    destruct (step_window _ _ _ _ _ _ _ _ Hw Hstep) as (Hb & Hn & Hk & Hadm).
    repeat split; auto.
    + destruct (Z.eq_dec (next_seq_num (arq w')) (next_seq_num (arq w))); [assumption |].
      destruct Hadm as (_ & _ & Hlt & _); [now left | lia].
    + intros seq Hin. destruct Hadm as (_ & _ & Hlt & _); [right; eauto | lia].
Qed.

Lemma window_state_invariant_witness :
  ack_received (arq (start TOTAL_FRAMES WINDOW_SIZE))
  = replicate (Z.to_nat TOTAL_FRAMES) false
  /\ forall w, reachable module_config (fun _ => 1 # 2) TOTAL_FRAMES WINDOW_SIZE w ->
       (0 <= base (arq w) <= next_seq_num (arq w)
        /\ next_seq_num (arq w) <= total_frames (arq w)
        /\ next_seq_num (arq w) - base (arq w) <= window_size (arq w))
       /\ forall a w' evs, step module_config (fun _ => 1 # 2) w a = Some (w', evs) ->
            base (arq w) <= base (arq w')
            /\ next_seq_num (arq w) <= next_seq_num (arq w')
            /\ (forall k, ack_received (arq w) !! k = Some true ->
                          ack_received (arq w') !! k = Some true)
            /\ (next_seq_num (arq w) - base (arq w) = window_size (arq w) ->
                next_seq_num (arq w') = next_seq_num (arq w)
                /\ forall seq, ~ In (EvSend seq) evs).
Proof.
  apply (window_state_invariant module_config (fun _ => 1 # 2) TOTAL_FRAMES WINDOW_SIZE);
    unfold TOTAL_FRAMES, WINDOW_SIZE; lia.
Defined.

(** ** Sliding on acknowledgement *)

Lemma arq_inv_first_unacked (self : SelectiveRepeatARQ) :
  arq_inv self -> ack_received self <> [] -> first_unacked self (base self).
Proof.
  intros [Hlen Hb Hbelow Hat] Hne.
  assert (0 < total_frames self).
  { destruct (ack_received self); [congruence | simpl in Hlen; lia]. }
  assert (base self <= total_frames self).
  { destruct (Z.le_gt_cases (base self) (total_frames self)) as [| Hgt]; [assumption |].
    specialize (Hbelow (total_frames self)).
    assert (Hl : ack_received self !! Z.to_nat (total_frames self) = Some true)
      by (apply Hbelow; lia).
    apply lookup_lt_Some in Hl. lia. }
  repeat split; auto.
  - intros i Hi. rewrite getitem_nonneg by lia. now apply Hbelow.
  - intros Hlt. rewrite getitem_nonneg by lia. now apply Hat.
Qed.

Lemma getitem_replicate_false (n : nat) (i : Z) :
  0 <= i < Z.of_nat n -> getitem (replicate n false) i = Some false.
Proof.
  intros Hi. rewrite getitem_nonneg by lia.
  apply lookup_replicate. split; [reflexivity | lia].
Qed.

Lemma setitem_nonneg {A} (l : list A) (i : Z) (x : A) :
  0 <= i < Z.of_nat (length l) -> setitem l i x = Some (<[Z.to_nat i := x]> l).
Proof.
  intros Hi. unfold setitem. now rewrite index_nonneg.
Qed.

(** C2. After [receive_ack(seq)] has returned for a frame already sent
    ([0 <= seq < next_seq_num]) in any state of a run, [base] is the
    smallest index whose slot is [False], or [total_frames] when all are
    [True].  With frames 0 and 1 admitted into a window of two and
    acknowledged in the order 1, 0: after the first call [base] is still 0,
    after the second it is 2. *)
Theorem selective_window_slide (cfg : Config) (src : nat -> Q) (total window : Z) :
  (forall w seq,
      reachable cfg src total window w ->
      0 <= seq < next_seq_num (arq w) ->
      exists self' evs,
        receive_ack (arq w) seq = (self', evs, Normal)
        /\ first_unacked self' (base self'))
  /\ (2 <= total ->
      exists f0 s1 f1 s2 s3 s4,
        send_in_window (new_arq total 2) = Some (f0, s1) /\ seq_num f0 = 0
        /\ send_in_window s1 = Some (f1, s2) /\ seq_num f1 = 1
        /\ send_in_window s2 = None
        /\ receive_ack s2 1 = (s3, [EvAck 1], Normal) /\ base s3 = 0
        /\ receive_ack s3 0 = (s4, [EvAck 0], Normal) /\ base s4 = 2).
Proof.
  split.
  - intros w seq Hr Hseq. pose proof (reachable_inv _ _ _ _ _ Hr) as Hw.
    destruct (receive_ack_sent _ _ _ _ Hw Hseq) as (self' & evs & Heq & _).
    exists self', evs. split; [assumption |].
    destruct (receive_ack_keeps _ _ _ _ _ (wi_arq _ _ _ Hw) Heq)
      as (Hinv' & Ht & _ & _ & _ & _ & _ & _ & _).
    apply arq_inv_first_unacked; [assumption |].
    pose proof (inv_length _ Hinv') as Hlen. rewrite Ht in Hlen.
    pose proof (wi_order _ _ _ Hw). rewrite (wi_total _ _ _ Hw) in Hlen.
    intros Hnil. rewrite Hnil in Hlen. simpl in Hlen. lia.
  - intros Ht.
    set (n := Z.to_nat total).
    assert (Hn : Z.of_nat n = total) by (unfold n; lia).
    exists (make_frame 0), (mkARQ total 2 0 1 (replicate n false)),
      (make_frame 1), (mkARQ total 2 0 2 (replicate n false)),
      (mkARQ total 2 0 2 (<[1%nat := true]> (replicate n false))),
      (mkARQ total 2 2 2 (<[0%nat := true]> (<[1%nat := true]> (replicate n false)))).
    assert (H0 : (0 <? total) = true) by (apply Z.ltb_lt; lia).
    assert (H1 : (1 <? total) = true) by (apply Z.ltb_lt; lia).
    repeat split.
    + unfold send_in_window, window_open; simpl. now rewrite H0.
    + unfold send_in_window, window_open; simpl. now rewrite H1.
    + unfold receive_ack; simpl.
      rewrite getitem_replicate_false by lia.
      rewrite setitem_nonneg by (rewrite length_replicate; lia).
      rewrite slide_window_eq, H0.
      rewrite getitem_nonneg by lia.
      rewrite list_lookup_insert_ne by discriminate.
      rewrite lookup_replicate_2 by lia. reflexivity.
    + unfold receive_ack; simpl.
      rewrite (getitem_nonneg _ 0) by lia.
      rewrite list_lookup_insert_ne by discriminate.
      rewrite lookup_replicate_2 by lia.
      rewrite setitem_nonneg by (rewrite length_insert, length_replicate; lia).
      rewrite slide_window_eq, H0.
      rewrite getitem_nonneg by lia.
      rewrite list_lookup_insert_eq by (rewrite length_insert, length_replicate; lia).
      change (0 + 1) with 1. rewrite slide_window_eq, H1.
      rewrite getitem_nonneg by lia.
      rewrite list_lookup_insert_ne by discriminate.
      rewrite list_lookup_insert_eq by (rewrite length_replicate; lia).
      change (1 + 1) with 2. rewrite slide_window_eq.
      destruct (Z.ltb_spec 2 total); [| reflexivity].
      rewrite getitem_nonneg by lia.
      rewrite !list_lookup_insert_ne by discriminate.
      rewrite lookup_replicate_2 by lia. reflexivity.
Qed.

Lemma selective_window_slide_witness :
  (exists w self' evs,
      exec module_config steady (start 5 2) (sending_schedule 2) = Some (w, [EvStart; EvSend 0; EvSend 1])
      /\ receive_ack (arq w) 1 = (self', evs, Normal)
      /\ first_unacked self' (base self'))
  /\ (exists f0 s1 f1 s2 s3 s4,
        send_in_window (new_arq 5 2) = Some (f0, s1) /\ seq_num f0 = 0
        /\ send_in_window s1 = Some (f1, s2) /\ seq_num f1 = 1
        /\ send_in_window s2 = None
        /\ receive_ack s2 1 = (s3, [EvAck 1], Normal) /\ base s3 = 0
        /\ receive_ack s3 0 = (s4, [EvAck 0], Normal) /\ base s4 = 2).
Proof.
  destruct (selective_window_slide module_config steady 5 2) as [Hany Hscenario].
  split; [| apply Hscenario; lia].
  destruct (exec module_config steady (start 5 2) (sending_schedule 2))
    as [[w evs0] |] eqn:Hexec; [| vm_compute in Hexec; discriminate].
  assert (Hr : reachable module_config steady 5 2 w)
    by (eapply exec_reachable; [apply reach_start | exact Hexec]).
  vm_compute in Hexec. injection Hexec as <- <-.
  destruct (Hany _ 1 Hr) as (self' & evs & Heq & Hfirst); [simpl; lia |].
  eexists _, self', evs. repeat split; try apply Hfirst. exact Heq.
Defined.

(** ** Acknowledgements delivered twice, and out of the table *)

Lemma built_inv (total window : Z) (self : SelectiveRepeatARQ) :
  built total window self -> arq_inv self /\ total_frames self = total.
Proof.
  induction 1 as [| self frame self' Hb [IH Ht] Ha | self seq self' evs c Hb [IH Ht] Hr].
  - split; [apply init_inv | reflexivity].
  - destruct (send_in_window_keeps _ _ _ IH Ha) as (Hinv & _ & -> & _). now split.
  - destruct (receive_ack_keeps _ _ _ _ _ IH Hr) as (Hinv & Ht' & _). split; congruence.
Qed.

(** With one slot per frame, a call whose index designates a slot returns
    normally and leaves that slot [True]. *)
Lemma receive_ack_defined (self : SelectiveRepeatARQ) (seq : Z) (k : nat) :
  arq_inv self ->
  index (length (ack_received self)) seq = Some k ->
  exists self' evs,
    receive_ack self seq = (self', evs, Normal)
    /\ ack_received self' !! k = Some true
    /\ length (ack_received self') = length (ack_received self).
Proof.
  intros Hinv Hk.
  destruct (receive_ack self seq) as [[self' evs] c] eqn:Heq.
  pose proof (receive_ack_paths self seq) as Hp. rewrite Heq in Hp.
  pose proof (index_lt _ _ _ Hk) as Hlt.
  inversion Hp as [Hget | Hget | acks b c' Hget Hset Hslide]; subst.
  - unfold getitem in Hget. rewrite Hk in Hget.
    apply lookup_ge_None in Hget. lia.
  - eexists _, _. split; [reflexivity |].
    unfold getitem in Hget. rewrite Hk in Hget. now split.
  - destruct (slide_window_spec (total_frames self) acks) with (b := base self)
      as (b' & Hs & _).
    + rewrite (setitem_length _ _ _ _ Hset). apply Hinv.
    + apply Hinv.
    + rewrite Hslide in Hs. injection Hs as -> ->.
      eexists _, _. split; [reflexivity |]. simpl.
      unfold setitem in Hset. rewrite Hk in Hset. injection Hset as <-.
      split; [now apply list_lookup_insert_eq | apply length_insert].
Qed.

(** C3. For a sender object however obtained and [0 <= seq <
    total_frames], [receive_ack(seq)] returns, and calling it again on the
    result returns the same object ([base], [next_seq_num] and the table
    unchanged) and prints nothing. *)
Theorem ack_delivery_idempotent (total window : Z) (self : SelectiveRepeatARQ) (seq : Z) :
  built total window self ->
  0 <= seq < total_frames self ->
  exists self' evs,
    receive_ack self seq = (self', evs, Normal)
    /\ receive_ack self' seq = (self', [], Normal).
Proof.
  intros Hb Hseq. destruct (built_inv _ _ _ Hb) as [Hinv _].
  assert (Hk : index (length (ack_received self)) seq = Some (Z.to_nat seq)).
  { apply index_nonneg. rewrite (inv_length _ Hinv). lia. }
  destruct (receive_ack_defined _ _ _ Hinv Hk) as (self' & evs & Heq & Htrue & Hlen).
  exists self', evs. split; [assumption |].
  unfold receive_ack, getitem. now rewrite Hlen, Hk, Htrue.
Qed.

Lemma ack_delivery_idempotent_witness :
  exists self' evs,
    receive_ack (new_arq TOTAL_FRAMES WINDOW_SIZE) 3 = (self', evs, Normal)
    /\ receive_ack self' 3 = (self', [], Normal).
Proof.
  apply (ack_delivery_idempotent TOTAL_FRAMES WINDOW_SIZE).
  - apply built_init.
  - simpl. unfold TOTAL_FRAMES. lia.
Defined.

(** C10. [receive_ack] indexes the table unguarded.  On a sender object
    however obtained: with [0 <= seq < total_frames] the call returns; with
    [seq >= total_frames] it raises [IndexError] (nothing changed, nothing
    printed); with [-total_frames <= seq < 0] it returns with the slot of
    frame [total_frames + seq] set. *)
Theorem receive_ack_index_bounds (total window : Z) (self : SelectiveRepeatARQ) (seq : Z) :
  built total window self ->
  (0 <= seq < total_frames self ->
     exists self' evs, receive_ack self seq = (self', evs, Normal))
  /\ (total_frames self <= seq ->
     receive_ack self seq = (self, [], Raises IndexError))
  /\ (- total_frames self <= seq < 0 ->
     exists self' evs,
       receive_ack self seq = (self', evs, Normal)
       /\ getitem (ack_received self') (total_frames self + seq) = Some true
       /\ getitem (ack_received self') seq = Some true).
Proof.
  intros Hb. destruct (built_inv _ _ _ Hb) as [Hinv _].
  pose proof (inv_length _ Hinv) as Hlen.
  split; [| split].
  - intros Hseq.
    assert (Hk : index (length (ack_received self)) seq = Some (Z.to_nat seq))
      by (apply index_nonneg; lia).
    destruct (receive_ack_defined _ _ _ Hinv Hk) as (self' & evs & Heq & _).
    eauto.
  - intros Hseq. unfold receive_ack, getitem.
    now rewrite index_out_of_range by lia.
  - intros Hseq.
    assert (Hk : index (length (ack_received self)) seq
                 = Some (Z.to_nat (total_frames self + seq))).
    { rewrite index_negative by lia. f_equal. lia. }
    destruct (receive_ack_defined _ _ _ Hinv Hk) as (self' & evs & Heq & Htrue & Hlen').
    exists self', evs. split; [assumption |]. split.
    + rewrite getitem_nonneg by lia. assumption.
    + unfold getitem. now rewrite Hlen', Hk.
Qed.

Lemma receive_ack_index_bounds_witness :
  (exists self' evs, receive_ack (new_arq 3 2) 2 = (self', evs, Normal))
  /\ receive_ack (new_arq 3 2) 3 = (new_arq 3 2, [], Raises IndexError)
  /\ (exists self' evs,
       receive_ack (new_arq 3 2) (-1) = (self', evs, Normal)
       /\ getitem (ack_received self') (3 + -1) = Some true
       /\ getitem (ack_received self') (-1) = Some true).
Proof.
  pose proof (built_init 3 2) as Hb.
  destruct (receive_ack_index_bounds 3 2 _ 2 Hb) as (Hin & _ & _).
  destruct (receive_ack_index_bounds 3 2 _ 3 Hb) as (_ & Hhigh & _).
  destruct (receive_ack_index_bounds 3 2 _ (-1) Hb) as (_ & _ & Hneg).
  split; [apply Hin; simpl; lia |].
  split; [apply Hhigh; simpl; lia |].
  apply Hneg; simpl; lia.
Defined.

(** ** Timer expiry *)

Lemma send_frame_events (cfg : Config) (frame : Frame) (src : nat -> Q) (i : nat) :
  let '((evs, out), j) := send_frame cfg frame src i in
  (evs = [EvLoss (seq_num frame)] /\ out = Dropped)
  \/ (exists d, evs = [EvReorder (seq_num frame)] /\ out = SleepThenAck d (seq_num frame))
  \/ (exists d, evs = [] /\ out = SleepThenAck d (seq_num frame)).
Proof.
  unfold send_frame, uniform, random, mbind, mret, rand_bind, rand_ret.
  repeat match goal with
         | |- context [if ?c then _ else _] => destruct c
         end; eauto.
Qed.

(** C4. When a timer expires, [timer_thread] reads [ack_received[seq]]
    inside [with self.lock:], the lock [receive_ack] takes.  If the slot is
    [True] the expiry prints nothing, starts no thread and changes nothing;
    a step that prints a timeout for [seq] is the expiry of a timer for
    [seq] taken with the lock free and the slot [False]; and while the lock
    is held neither an expiry check nor an acknowledgement runs. *)
Theorem timer_rechecks_ack (cfg : Config) (src : nat -> Q) :
  (forall w k seq,
      timers w !! k = Some seq ->
      getitem (ack_received (arq w)) seq = Some true ->
      lock_free w = true ->
      step cfg src w (FireTimer k)
      = Some (mkWorld (arq w) (main w) (senders w) (sleepers w)
                      (delete k (timers w)) (draws w), []))
  /\ (forall w a w' evs seq,
      step cfg src w a = Some (w', evs) ->
      In (EvTimeout seq) evs ->
      lock_free w = true
      /\ getitem (ack_received (arq w)) seq = Some false
      /\ senders w' = senders w ++ [make_frame seq]
      /\ exists k, a = FireTimer k /\ timers w !! k = Some seq)
  /\ (forall w k,
      lock_free w = false ->
      step cfg src w (FireTimer k) = None /\ step cfg src w (WakeSleeper k) = None).
Proof.
  split; [| split].
  - intros w k seq Hk Hget Hfree. simpl. rewrite Hk, Hfree.
    unfold timer_thread. rewrite Hget. now rewrite app_nil_r.
  - intros w a w' evs seq Hstep Hin. destruct a as [| k | k | k]; simpl in Hstep.
    + exfalso. unfold step_main in Hstep.
      destruct (main w); try discriminate;
        [ | destruct (unfinished (arq w)) | | destruct (send_in_window (arq w)) as [[f s] |] ];
        injection Hstep as <- <-; simpl in Hin;
        repeat (destruct Hin as [Hin | Hin]; try discriminate); assumption.
    + exfalso. destruct (senders w !! k) as [frame |]; [| discriminate].
      pose proof (send_frame_events cfg frame src (draws w)) as Hev.
      destruct (send_frame cfg frame src (draws w)) as [[evs0 out] i].
      injection Hstep as <- <-.
      destruct Hev as [[-> _] | [(d & -> & _) | (d & -> & _)]]; simpl in Hin;
        repeat (destruct Hin as [Hin | Hin]; try discriminate); assumption.
    + exfalso. destruct (sleepers w !! k) as [[d s] |]; [| discriminate].
      destruct (lock_free w); [| discriminate].
      pose proof (receive_ack_paths (arq w) s) as Hp.
      destruct (receive_ack (arq w) s) as [[self' evs0] c].
      injection Hstep as <- <-.
      inversion Hp; subst; simpl in Hin;
        repeat (destruct Hin as [Hin | Hin]; try discriminate); assumption.
    + destruct (timers w !! k) as [s |] eqn:Hk; [| discriminate].
      destruct (lock_free w); [| discriminate].
      unfold timer_thread in Hstep.
      destruct (getitem (ack_received (arq w)) s) as [[|]|] eqn:Hget;
        injection Hstep as <- <-; simpl in Hin;
        repeat (destruct Hin as [Hin | Hin]; try discriminate); try contradiction.
      injection Hin as ->. simpl. repeat split; auto. eauto.
  - intros w k Hheld. simpl. rewrite Hheld.
    destruct (timers w !! k); destruct (sleepers w !! k) as [[d s] |]; auto.
Qed.

Lemma timer_rechecks_ack_witness :
  (ack_received (arq acked_world) = [true]
   /\ timers acked_world = [0]
   /\ step module_config steady acked_world (FireTimer 0)
      = Some (mkWorld (arq acked_world) (main acked_world) (senders acked_world)
                      (sleepers acked_world) [] (draws acked_world), []))
  /\ (step module_config lossy lost_world (FireTimer 0)
      = Some (mkWorld (arq lost_world) AtOuter [make_frame 0] [] [] 2, [EvTimeout 0])
      /\ lock_free lost_world = true
      /\ getitem (ack_received (arq lost_world)) 0 = Some false)
  /\ (let held := world_after module_config steady 1 1 (sending_schedule 1) in
      lock_free held = false
      /\ step module_config steady held (FireTimer 0) = None
      /\ step module_config steady held (WakeSleeper 0) = None).
Proof.
  destruct (timer_rechecks_ack module_config steady) as (Hskip & _ & Hlock).
  destruct (timer_rechecks_ack module_config lossy) as (_ & Hfire & _).
  split; [| split].
  - split; [reflexivity |]. split; [reflexivity |].
    apply (Hskip acked_world 0%nat 0); reflexivity.
  - assert (Hstep : step module_config lossy lost_world (FireTimer 0)
                    = Some (mkWorld (arq lost_world) AtOuter [make_frame 0] [] [] 2,
                            [EvTimeout 0])) by reflexivity.
    destruct (Hfire _ _ _ _ 0 Hstep) as (Hfree & Hget & _); [now left |].
    auto.
  - simpl. split; [reflexivity |].
    apply (Hlock (world_after module_config steady 1 1 (sending_schedule 1)) 0%nat).
    reflexivity.
Defined.

(** ** Timers and acknowledgements *)

Lemma fire_acked_timer (cfg : Config) (src : nat -> Q) (w : World) (k : nat) (seq : Z) :
  timers w !! k = Some seq ->
  getitem (ack_received (arq w)) seq = Some true ->
  lock_free w = true ->
  step cfg src w (FireTimer k)
  = Some (mkWorld (arq w) (main w) (senders w) (sleepers w)
                  (delete k (timers w)) (draws w), []).
Proof.
  intros Hk Hget Hfree. simpl. rewrite Hk, Hfree.
  unfold timer_thread. rewrite Hget. now rewrite app_nil_r.
Qed.

Lemma exec_keeps (cfg : Config) (src : nat -> Q) (total window : Z)
      (sched : list action) :
  forall w w' evs,
    world_inv total window w ->
    exec cfg src w sched = Some (w', evs) ->
    world_inv total window w'
    /\ forall k, ack_received (arq w) !! k = Some true ->
                 ack_received (arq w') !! k = Some true.
Proof.
  induction sched as [| a sched IH]; intros w w' evs Hw; simpl.
  - intros [= <- <-]. auto.
  - destruct (step cfg src w a) as [[w1 evs1] |] eqn:Hstep; [| discriminate].
    destruct (exec cfg src w1 sched) as [[w2 evs2] |] eqn:Hexec; [| discriminate].
    intros [= <- <-].
    pose proof (step_inv _ _ _ _ _ _ _ _ Hw Hstep) as Hw1.
    destruct (step_window _ _ _ _ _ _ _ _ Hw Hstep) as (_ & _ & Hk1 & _).
    destruct (IH _ _ _ Hw1 Hexec) as [Hw2 Hk2]. auto.
Qed.

(** C6. The flag an expiring timer reads is [ack_received[seq]] itself, and
    the call of [receive_ack(seq)] that records the acknowledgement sets it
    in the same locked section: before the call the slot is [False], so an
    expiry would retransmit; after it the slot is [True], and from then on,
    whenever a timer of [seq] expires it does nothing: it prints nothing,
    starts no thread and changes no state. *)
Theorem ack_cancels_timer (cfg : Config) (src : nat -> Q) (total window : Z)
        (w w1 : World) (k : nat) (evs : list event) (seq : Z) :
  reachable cfg src total window w ->
  step cfg src w (WakeSleeper k) = Some (w1, evs) ->
  In (EvAck seq) evs ->
  getitem (ack_received (arq w)) seq = Some false
  /\ getitem (ack_received (arq w1)) seq = Some true
  /\ forall sched w2 evs2 j,
       exec cfg src w1 sched = Some (w2, evs2) ->
       timers w2 !! j = Some seq ->
       lock_free w2 = true ->
       getitem (ack_received (arq w2)) seq = Some true
       /\ step cfg src w2 (FireTimer j)
          = Some (mkWorld (arq w2) (main w2) (senders w2) (sleepers w2)
                          (delete j (timers w2)) (draws w2), []).
Proof.
  intros Hr Hstep Hin.
  pose proof (reachable_inv _ _ _ _ _ Hr) as Hw.
  pose proof (step_inv _ _ _ _ _ _ _ _ Hw Hstep) as Hw1.
  simpl in Hstep.
  destruct (sleepers w !! k) as [[d s] |] eqn:Hk; [| discriminate].
  destruct (lock_free w); [| discriminate].
  pose proof (receive_ack_paths (arq w) s) as Hp.
  destruct (receive_ack (arq w) s) as [[self' evs0] c].
  injection Hstep as <- <-.
  assert (Hs : 0 <= s < next_seq_num (arq w)).
  { pose proof (wi_sleepers _ _ _ Hw) as Hall. rewrite Forall_lookup in Hall.
    apply (Hall k (d, s) Hk). }
  assert (Hflag : getitem (ack_received (arq w)) seq = Some false
                  /\ getitem (ack_received self') seq = Some true /\ 0 <= seq).
  { inversion Hp as [Hget | Hget | acks b c' Hget Hset Hslide]; subst;
      simpl in Hin; try contradiction.
    destruct Hin as [[= <-] | []]. simpl.
    split; [assumption |]. split; [| lia].
    eapply setitem_same; eauto. }
  destruct Hflag as (Hbefore & Hafter & Hseq).
  split; [exact Hbefore |]. split; [exact Hafter |].
  intros sched w2 evs2 j Hexec Hj Hfree.
  destruct (exec_keeps _ _ _ _ _ _ _ _ Hw1 Hexec) as [_ Hkeep].
  assert (Hlater : getitem (ack_received (arq w2)) seq = Some true).
  { rewrite getitem_nonneg by lia. apply Hkeep. simpl.
    now rewrite <- getitem_nonneg by lia. }
  split; [exact Hlater |].
  now apply (fire_acked_timer cfg src w2 j seq).
Qed.

Lemma ack_cancels_timer_witness :
  getitem (ack_received (arq ack_pending_world)) 0 = Some false
  /\ getitem (ack_received (arq acked_world)) 0 = Some true
  /\ forall sched w2 evs2 j,
       exec module_config steady acked_world sched = Some (w2, evs2) ->
       timers w2 !! j = Some 0 ->
       lock_free w2 = true ->
       getitem (ack_received (arq w2)) 0 = Some true
       /\ step module_config steady w2 (FireTimer j)
          = Some (mkWorld (arq w2) (main w2) (senders w2) (sleepers w2)
                          (delete j (timers w2)) (draws w2), []).
Proof.
  apply (ack_cancels_timer module_config steady 1 1
           ack_pending_world acked_world 0%nat [EvAck 0] 0).
  - apply world_after_reachable.
  - reflexivity.
  - simpl. auto.
Defined.

(** ** Acknowledgements for frames not yet sent *)

(** Against C7 as first stated: on a fresh [SelectiveRepeatARQ(2, 1)], where
    nothing has been sent, [receive_ack(1)] returns normally and records
    the acknowledgement. *)
Lemma unsent_ack_accepted :
  next_seq_num (new_arq 2 1) <= 1 < total_frames (new_arq 2 1)
  /\ receive_ack (new_arq 2 1) 1 = (mkARQ 2 1 0 0 [false; true], [EvAck 1], Normal).
Proof. split; [simpl; lia | reflexivity]. Qed.

(** C7, amended. In any state of a run, [receive_ack(seq)] with
    [next_seq_num <= seq < total_frames] raises nothing: it returns
    normally, having set the slot and printed the acknowledgement like for
    any other frame; and with [0 <= seq < base] it is a no-op. *)
Theorem unsent_ack_is_recorded (cfg : Config) (src : nat -> Q) (total window : Z)
        (w : World) (seq : Z) :
  reachable cfg src total window w ->
  (next_seq_num (arq w) <= seq < total_frames (arq w) ->
     exists self',
       receive_ack (arq w) seq = (self', [EvAck seq], Normal)
       /\ getitem (ack_received self') seq = Some true)
  /\ (0 <= seq < base (arq w) ->
     receive_ack (arq w) seq = (arq w, [], Normal)).
Proof.
  intros Hr. pose proof (reachable_inv _ _ _ _ _ Hr) as Hw.
  pose proof (wi_arq _ _ _ Hw) as Hinv.
  pose proof (inv_base _ Hinv) as Hb. pose proof (wi_order _ _ _ Hw) as Hord.
  split.
  - intros Hseq.
    assert (Hk : index (length (ack_received (arq w))) seq = Some (Z.to_nat seq)).
    { apply index_nonneg. rewrite (inv_length _ Hinv). lia. }
    destruct (receive_ack_defined _ _ _ Hinv Hk) as (self' & evs & Heq & Htrue & Hlen).
    exists self'.
    assert (Hget : getitem (ack_received self') seq = Some true)
      by (unfold getitem; now rewrite Hlen, Hk).
    split; [| assumption].
    pose proof (receive_ack_paths (arq w) seq) as Hp. rewrite Heq in Hp.
    inversion Hp as [Hg | Hg | acks b c' Hg Hset Hslide]; subst.
    + unfold getitem in Hg. rewrite Hk in Hg.
      apply (wi_acked _ _ _ Hw) in Hg. lia.
    + exact Heq.
  - intros Hseq. unfold receive_ack.
    rewrite getitem_nonneg by lia.
    now rewrite (inv_below _ Hinv seq Hseq).
Qed.

Lemma unsent_ack_is_recorded_witness :
  (exists self',
      receive_ack (arq (start 2 1)) 1 = (self', [EvAck 1], Normal)
      /\ getitem (ack_received self') 1 = Some true)
  /\ receive_ack (arq acked_world) 0 = (arq acked_world, [], Normal).
Proof.
  destruct (unsent_ack_is_recorded module_config steady 2 1 (start 2 1) 1
              (reach_start _ _ _ _)) as [Hunsent _].
  destruct (unsent_ack_is_recorded module_config steady 1 1 acked_world 0
              (world_after_reachable _ _ _ _ _)) as [_ Hbelow].
  split; [apply Hunsent; simpl; lia | apply Hbelow; vm_compute; split; congruence].
Defined.

(** ** Construction *)

(** What [__init__] returns when it returns. *)
Lemma init_returns (capacity : Z) (cfg : Config) (total window : Z)
      (self : SelectiveRepeatARQ) :
  __init__ capacity cfg total window = Ok self -> self = new_arq total window.
Proof.
  unfold __init__, repeat_list.
  destruct (fits_index total); [| discriminate].
  destruct ((total <=? 0) || (total <=? capacity)); [| discriminate].
  now intros [= <-].
Qed.

(** Against C8 as first stated: with room for a thousand slots, a window
    wider than the stream, and module constants with negative probabilities
    and a zero timeout, are all accepted, and the object is built. *)
Lemma invalid_configuration_accepted :
  __init__ 1000 module_config 1 5 = Ok (mkARQ 1 5 0 0 [false])
  /\ __init__ 1000 (mkConfig (-1 # 2) (-1 # 2) 0 (5 # 10, 15 # 10)) 1 1
     = Ok (mkARQ 1 1 0 0 [false]).
Proof. split; reflexivity. Qed.

(** C8, amended. [__init__] validates nothing.  Whether it returns depends
    on [total_frames] alone, never on [window_size] or on the module
    constants: it raises [OverflowError] when [total_frames] does not fit
    an index-sized integer and [MemoryError] when a table of that many
    slots cannot be allocated, and in every other case it returns normally,
    with [base] and [next_seq_num] at 0 and one [False] slot per frame (none
    for a count of zero or less), and the run starts. *)
Theorem init_validates_nothing (capacity : Z) (cfg : Config) (src : nat -> Q)
        (total window : Z) :
  (fits_index total = false ->
     __init__ capacity cfg total window = Error OverflowError)
  /\ (fits_index total = true -> 0 < total -> capacity < total ->
     __init__ capacity cfg total window = Error MemoryError)
  /\ (fits_index total = true -> total <= Z.max 0 capacity ->
     __init__ capacity cfg total window = Ok (new_arq total window)
     /\ total_frames (new_arq total window) = total
     /\ window_size (new_arq total window) = window
     /\ base (new_arq total window) = 0
     /\ next_seq_num (new_arq total window) = 0
     /\ length (ack_received (new_arq total window)) = Z.to_nat total
     /\ (forall k b, ack_received (new_arq total window) !! k = Some b -> b = false)
     /\ arq (start total window) = new_arq total window
     /\ exists w, step cfg src (start total window) RunMain = Some (w, [EvStart])).
Proof.
  unfold __init__, repeat_list. split; [| split].
  - now intros ->.
  - intros -> Hpos Hcap.
    replace ((total <=? 0) || (total <=? capacity)) with false; [reflexivity |].
    symmetry. apply orb_false_iff. split; apply Z.leb_gt; lia.
  - intros -> Hcap.
    replace ((total <=? 0) || (total <=? capacity)) with true.
    + repeat split.
      * apply length_replicate.
      * intros k b Hk. simpl in Hk. apply lookup_replicate in Hk. now destruct Hk.
      * eexists. reflexivity.
    + symmetry. apply orb_true_iff.
      destruct (Z.le_gt_cases total 0); [left | right]; apply Z.leb_le; lia.
Qed.

Lemma init_validates_nothing_witness :
  __init__ 1000 module_config (2 ^ 63) 4 = Error OverflowError
  /\ __init__ 1000 module_config 1001 4 = Error MemoryError
  /\ (__init__ 1000 module_config 1 5 = Ok (new_arq 1 5)
      /\ total_frames (new_arq 1 5) = 1
      /\ window_size (new_arq 1 5) = 5
      /\ base (new_arq 1 5) = 0
      /\ next_seq_num (new_arq 1 5) = 0
      /\ length (ack_received (new_arq 1 5)) = Z.to_nat 1
      /\ (forall k b, ack_received (new_arq 1 5) !! k = Some b -> b = false)
      /\ arq (start 1 5) = new_arq 1 5
      /\ exists w, step module_config steady (start 1 5) RunMain = Some (w, [EvStart])).
Proof.
  destruct (init_validates_nothing 1000 module_config steady (2 ^ 63) 4) as (Hover & _).
  destruct (init_validates_nothing 1000 module_config steady 1001 4) as (_ & Hmem & _).
  destruct (init_validates_nothing 1000 module_config steady 1 5) as (_ & _ & Hok).
  split; [apply Hover; reflexivity |].
  split; [apply Hmem; [reflexivity | lia | lia] |].
  apply Hok; [reflexivity | lia].
Defined.

(** ** The channel *)

Lemma Qltb_lt (x y : Q) : Qltb x y = true <-> (x < y)%Q.
Proof.
  unfold Qltb. rewrite negb_true_iff. split.
  - intros H. apply Qnot_le_lt. intros Hle.
    apply Qle_bool_iff in Hle. congruence.
  - intros H. destruct (Qle_bool y x) eqn:Hle; [| reflexivity].
    apply Qle_bool_iff in Hle. exfalso. eapply Qlt_not_le; eauto.
Qed.

Lemma Qltb_ge (x y : Q) : Qltb x y = false <-> ~ (x < y)%Q.
Proof.
  rewrite <- Qltb_lt. destruct (Qltb x y); split; congruence.
Qed.

(** Against C9 as first stated: with a first draw of 0.1 and later draws of
    0.9, [send_frame] spends the first draw on the delay and the second on
    the loss decision, so frame 7 is delivered after three draws; a channel
    that draws the loss decision first drops it after one. *)
Lemma loss_is_not_drawn_first :
  send_frame module_config (make_frame 7) low_then_high 0%nat
  = ([], SleepThenAck ((5 # 10) + ((15 # 10) - (5 # 10)) * (1 # 10))%Q 7, 3%nat)
  /\ transmit_as_specified module_config (make_frame 7) low_then_high 0%nat
     = ([EvLoss 7], Dropped, 1%nat).
Proof. split; reflexivity. Qed.

(** C9, amended. For every attempted send, [send_frame] first draws the
    base delay uniformly from [DELAY_RANGE], then the loss decision against
    [LOSS_PROBABILITY]; if lost it prints the loss and delivers no
    acknowledgement, two draws made in all; otherwise it draws the reorder
    decision against [REORDER_PROBABILITY] and, if it holds, adds a further
    delay drawn uniformly from (1.0, 2.0); the thread then sleeps for the
    delay computed and calls [receive_ack] with the frame's own [seq_num]. *)
Theorem send_frame_contract (cfg : Config) (frame : Frame) (src : nat -> Q) (i : nat) :
  let lo := fst (DELAY_RANGE cfg) in
  let hi := snd (DELAY_RANGE cfg) in
  let delay := (lo + (hi - lo) * src i)%Q in
  let lost := (src (1 + i)%nat < LOSS_PROBABILITY cfg)%Q in
  let reordered := (src (2 + i)%nat < REORDER_PROBABILITY cfg)%Q in
  (lost ->
     send_frame cfg frame src i = ([EvLoss (seq_num frame)], Dropped, (2 + i)%nat))
  /\ (~ lost -> reordered ->
     send_frame cfg frame src i
     = ([EvReorder (seq_num frame)],
        SleepThenAck (delay + (1 + (2 - 1) * src (3 + i)%nat))%Q (seq_num frame),
        (4 + i)%nat))
  /\ (~ lost -> ~ reordered ->
     send_frame cfg frame src i
     = ([], SleepThenAck delay (seq_num frame), (3 + i)%nat))
  /\ (forall w k d seq,
     sleepers w !! k = Some (d, seq) ->
     lock_free w = true ->
     step cfg src w (WakeSleeper k)
     = Some (mkWorld (fst (fst (receive_ack (arq w) seq))) (main w) (senders w)
                     (delete k (sleepers w)) (timers w) (draws w),
             snd (fst (receive_ack (arq w) seq)))).
Proof.
  intros lo hi delay lost reordered.
  unfold send_frame, uniform, random, mbind, mret, rand_bind, rand_ret.
  repeat split.
  - intros Hl. apply Qltb_lt in Hl. simpl in Hl. now rewrite Hl.
  - intros Hl Hr. apply Qltb_ge in Hl. apply Qltb_lt in Hr. simpl in Hl, Hr.
    now rewrite Hl, Hr.
  - intros Hl Hr. apply Qltb_ge in Hl. apply Qltb_ge in Hr. simpl in Hl, Hr.
    now rewrite Hl, Hr.
  - intros w k d seq Hk Hfree. simpl. rewrite Hk, Hfree.
    now destruct (receive_ack (arq w) seq) as [[self' evs] c].
Qed.

Lemma send_frame_contract_witness :
  send_frame module_config (make_frame 7) lossy 0%nat = ([EvLoss 7], Dropped, 2%nat)
  /\ send_frame module_config (make_frame 7) reordering 0%nat
     = ([EvReorder 7],
        SleepThenAck (((5 # 10) + ((15 # 10) - (5 # 10)) * (1 # 2))
                      + (1 + (2 - 1) * (1 # 2)))%Q 7, 4%nat)
  /\ send_frame module_config (make_frame 7) steady 0%nat
     = ([], SleepThenAck ((5 # 10) + ((15 # 10) - (5 # 10)) * (1 # 2))%Q 7, 3%nat)
  /\ step module_config steady ack_pending_world (WakeSleeper 0)
     = Some (acked_world, [EvAck 0]).
Proof.
  destruct (send_frame_contract module_config (make_frame 7) lossy 0) as (Hlost & _).
  destruct (send_frame_contract module_config (make_frame 7) reordering 0)
    as (_ & Hreorder & _).
  destruct (send_frame_contract module_config (make_frame 7) steady 0)
    as (_ & _ & Hplain & Hwake).
  split; [apply Hlost; reflexivity |].
  split; [apply Hreorder; [intros H; vm_compute in H; discriminate | reflexivity] |].
  split; [apply Hplain; intros H; vm_compute in H; discriminate |].
  apply (Hwake ack_pending_world 0%nat ((5 # 10) + ((15 # 10) - (5 # 10)) * (1 # 2))%Q 0);
    reflexivity.
Defined.

(** ** Retransmission *)

(** After the lost retransmission of frame 0 in [SelectiveRepeatARQ(1, 1)]
    only the main thread can be scheduled, and it goes round its loop
    without printing or changing anything. *)
Lemma stuck_step (pc : main_pc) (a : action) (w : World) (evs : list event) :
  looping pc = true ->
  step module_config lossy (stuck_at pc) a = Some (w, evs) ->
  evs = [] /\ exists pc', looping pc' = true /\ w = stuck_at pc'.
Proof.
  intros Hpc Hstep.
  destruct pc; try discriminate; destruct a as [| k | k | k];
    try (destruct k; discriminate);
    vm_compute in Hstep; injection Hstep as <- <-;
    (split; [reflexivity |]).
  - now exists AtLock.
  - now exists InLock.
  - now exists AtOuter.
Qed.

Lemma stuck_world_closed (sched : list action) :
  forall pc,
    looping pc = true ->
    match exec module_config lossy (stuck_at pc) sched with
    | Some (w, evs) => evs = [] /\ exists pc', looping pc' = true /\ w = stuck_at pc'
    | None => True
    end.
Proof.
  induction sched as [| a sched IH]; intros pc Hpc.
  - simpl. eauto.
  - cbn [exec].
    destruct (step module_config lossy (stuck_at pc) a) as [[w1 evs1] |] eqn:Hstep;
      [| exact I].
    destruct (stuck_step _ _ _ _ Hpc Hstep) as [-> (pc1 & Hpc1 & ->)].
    specialize (IH pc1 Hpc1).
    destruct (exec module_config lossy (stuck_at pc1) sched) as [[w2 evs2] |];
      [exact IH | exact I].
Qed.

(** C5, on the code. An expiring timer is removed and none is started in
    its place.  In [SelectiveRepeatARQ(1, 1)] with every transmission lost,
    frame 0 is sent, lost, timed out, retransmitted and lost again; no
    sender, sleeper or timer is left, and whatever is scheduled from then
    on prints nothing, leaves frame 0 unacknowledged and never lets [run]
    finish. *)
Theorem lost_retransmission_strands_frame :
  (forall cfg src w k,
      match step cfg src w (FireTimer k) with
      | Some (w', _) => timers w' = delete k (timers w)
      | None => True
      end)
  /\ exec module_config lossy (start 1 1)
          (one_frame_sent ++ [RunSender 0; FireTimer 0; RunSender 0])%nat
     = Some (stuck_world, [EvStart; EvSend 0; EvLoss 0; EvTimeout 0; EvLoss 0])
  /\ stuck_world = mkWorld (mkARQ 1 1 0 1 [false]) AtOuter [] [] [] 4
  /\ (forall sched,
      match exec module_config lossy stuck_world sched with
      | Some (w, evs) =>
          evs = []
          /\ arq w = mkARQ 1 1 0 1 [false]
          /\ senders w = [] /\ sleepers w = [] /\ timers w = []
          /\ main w <> Finished
      | None => True
      end).
Proof.
  split; [| split; [reflexivity | split; [reflexivity |]]].
  - intros cfg src w k. simpl.
    destruct (timers w !! k) as [seq |]; [| exact I].
    destruct (lock_free w); [| exact I].
    now destruct (timer_thread (arq w) seq) as [[evs frames] c].
  - intros sched.
    pose proof (stuck_world_closed sched AtOuter eq_refl) as H.
    change (stuck_at AtOuter) with stuck_world in H.
    destruct (exec module_config lossy stuck_world sched) as [[w evs] |]; [| exact I].
    destruct H as [-> (pc & Hpc & ->)].
    repeat split. intros Hf. simpl in Hf. now subst pc.
Qed.

(** * Further properties of the simulator *)

(** ** Steps, case by case *)

Lemma step_transition (cfg : Config) (src : nat -> Q) (w w' : World)
      (a : action) (evs : list event) :
  step cfg src w a = Some (w', evs) -> transition cfg src w a w' evs.
Proof.
  destruct a as [| k | k | k]; simpl.
  - unfold step_main, send_in_window. destruct (main w) eqn:Hm.
    + intros [= <- <-]. now constructor.
    + destruct (unfinished (arq w)) eqn:Hu; intros [= <- <-]; now constructor.
    + intros [= <- <-]. now constructor.
    + destruct (window_open (arq w)) eqn:Ho; intros [= <- <-]; now constructor.
    + discriminate.
  - destruct (senders w !! k) as [frame |] eqn:Hk; [| discriminate].
    pose proof (send_frame_events cfg frame src (draws w)) as Hev.
    destruct (send_frame cfg frame src (draws w)) as [[evs0 out] i] eqn:Hsf.
    intros [= <- <-].
    destruct Hev as [[-> ->] | [(d & -> & ->) | (d & -> & ->)]].
    + rewrite app_nil_r. now apply tr_lost.
    + eapply tr_through; eauto.
    + eapply tr_through; eauto.
  - destruct (sleepers w !! k) as [[d seq] |] eqn:Hk; [| discriminate].
    destruct (lock_free w) eqn:Hfree; [| discriminate].
    pose proof (receive_ack_paths (arq w) seq) as Hp.
    destruct (receive_ack (arq w) seq) as [[self' evs0] c] eqn:Hra.
    intros [= <- <-].
    inversion Hp as [Hget | Hget | acks b c' Hget Hset Hslide]; subst.
    + eapply tr_duplicate; eauto.
    + eapply tr_duplicate; eauto.
    + eapply tr_ack; eauto.
  - destruct (timers w !! k) as [seq |] eqn:Hk; [| discriminate].
    destruct (lock_free w) eqn:Hfree; [| discriminate].
    unfold timer_thread.
    destruct (getitem (ack_received (arq w)) seq) as [[|]|] eqn:Hget;
      intros [= <- <-].
    + rewrite app_nil_r. eapply tr_expire_acked; eauto.
      * congruence.
      * unfold timer_thread. now rewrite Hget.
    + now apply tr_retransmit.
    + rewrite app_nil_r. eapply tr_expire_acked; eauto.
      * congruence.
      * unfold timer_thread. now rewrite Hget.
Qed.

Lemma exec_invariant (cfg : Config) (src : nat -> Q) (total window : Z)
      (P : World -> list event -> Prop) :
  (forall w evs a w' e,
      world_inv total window w -> P w evs ->
      transition cfg src w a w' e -> P w' (evs ++ e)) ->
  forall sched w evs0 w' evs,
    world_inv total window w -> P w evs0 ->
    exec cfg src w sched = Some (w', evs) ->
    P w' (evs0 ++ evs).
Proof.
  intros Hstep. induction sched as [| a sched IH]; intros w evs0 w' evs Hw HP; simpl.
  - intros [= <- <-]. now rewrite app_nil_r.
  - destruct (step cfg src w a) as [[w1 e1] |] eqn:Hs; [| discriminate].
    destruct (exec cfg src w1 sched) as [[w2 e2] |] eqn:He; [| discriminate].
    intros [= <- <-]. rewrite app_assoc.
    eapply IH; [| | exact He].
    + eapply step_inv; eauto.
    + eapply Hstep; eauto using step_transition.
Qed.

Lemma run_invariant (cfg : Config) (src : nat -> Q) (total window : Z)
      (P : World -> list event -> Prop) :
  P (start total window) [] ->
  (forall w evs a w' e,
      world_inv total window w -> P w evs ->
      transition cfg src w a w' e -> P w' (evs ++ e)) ->
  forall sched w evs,
    exec cfg src (start total window) sched = Some (w, evs) -> P w evs.
Proof.
  intros H0 Hstep sched w evs He.
  change evs with ([] ++ evs).
  eapply exec_invariant; eauto using start_inv.
Qed.

Lemma receive_ack_frame (self self' : SelectiveRepeatARQ) (seq : Z)
      (evs : list event) (c : completion) :
  receive_ack self seq = (self', evs, c) ->
  total_frames self' = total_frames self
  /\ window_size self' = window_size self
  /\ next_seq_num self' = next_seq_num self.
Proof.
  intros Heq. pose proof (receive_ack_paths self seq) as Hp. rewrite Heq in Hp.
  inversion Hp; subst; auto.
Qed.

Lemma sent_app (evs e : list event) : sent (evs ++ e) = sent evs ++ sent e.
Proof. apply omap_app. Qed.

Lemma acked_app (evs e : list event) : acked (evs ++ e) = acked evs ++ acked e.
Proof. apply omap_app. Qed.

Lemma timed_out_app (evs e : list event) :
  timed_out (evs ++ e) = timed_out evs ++ timed_out e.
Proof. apply omap_app. Qed.

(** ** First transmissions *)

(** What has been printed of [SEND] lines, against [next_seq_num]. *)
Lemma sent_so_far (cfg : Config) (src : nat -> Q) (total window : Z)
        (sched : list action) (w : World) (evs : list event) :
  exec cfg src (start total window) sched = Some (w, evs) ->
  sent evs = seqZ 0 (next_seq_num (arq w)).
Proof.
  revert sched w evs.
  apply (run_invariant cfg src total window
           (fun w evs => sent evs = seqZ 0 (next_seq_num (arq w)))).
  - reflexivity.
  - intros w evs a w' e Hw HP Ht. rewrite sent_app.
    pose proof (inv_base _ (wi_arq _ _ _ Hw)) as Hb.
    pose proof (wi_order _ _ _ Hw) as Hord.
    inversion Ht; subst; simpl; rewrite ?app_nil_r; try assumption.
    + rewrite HP.
      rewrite (seqZ_app 0 (next_seq_num (arq w)) 1) by lia.
      reflexivity.
    + match goal with H : _ \/ _ |- _ => destruct H as [-> | ->] end;
        simpl; now rewrite app_nil_r.
    + match goal with H : receive_ack _ _ = _ |- _ =>
        destruct (receive_ack_frame _ _ _ _ _ H) as (_ & _ & ->) end.
      assumption.
Qed.

(** X1. The [SEND] lines of a run name the frames 0, 1, 2, ... in order,
    each once, up to [next_seq_num]: every frame is sent for the first time
    exactly once and none is skipped. *)
Theorem sends_in_order (cfg : Config) (src : nat -> Q) (total window : Z)
        (sched : list action) (w : World) (evs : list event) :
  exec cfg src (start total window) sched = Some (w, evs) ->
  sent evs = seqZ 0 (next_seq_num (arq w)).
Proof.
  intros Hexec.
  pose proof (sent_so_far cfg src total window sched w evs Hexec) as Hsent.
  exact Hsent.
Qed.

Lemma sends_in_order_witness :
  sent [EvStart; EvSend 0; EvSend 1; EvAck 1; EvAck 0; EvSend 2; EvSend 3]
  = seqZ 0 4.
Proof.
  apply (sends_in_order module_config steady 5 2
           (sending_schedule 2
            ++ [RunMain; RunSender 0; RunSender 0; WakeSleeper 1; WakeSleeper 0;
                RunMain; RunMain; RunMain; RunMain]%nat)
           (mkWorld (mkARQ 5 2 2 4 [true; true; false; false; false]) InLock
                    [make_frame 2; make_frame 3] [] [0; 1; 2; 3] 6)).
  reflexivity.
Defined.

(** ** Timeouts *)

(** X2. No frame times out twice in a run, and a frame that has timed out
    has no timer left: among the frames of the [TIMEOUT] lines printed so
    far and the timers still pending no frame occurs twice, and all of them
    are frames already sent. *)
Theorem one_timeout_per_frame (cfg : Config) (src : nat -> Q) (total window : Z)
        (sched : list action) (w : World) (evs : list event) :
  exec cfg src (start total window) sched = Some (w, evs) ->
  NoDup (timed_out evs ++ timers w)
  /\ Forall (fun seq => 0 <= seq < next_seq_num (arq w)) (timed_out evs).
Proof.
  revert sched w evs.
  apply (run_invariant cfg src total window
           (fun w evs =>
              NoDup (timed_out evs ++ timers w)
              /\ Forall (fun seq => 0 <= seq < next_seq_num (arq w)) (timed_out evs))).
  - split; constructor.
  - intros w evs a w' e Hw [Hnd Hall] Ht. rewrite timed_out_app.
    pose proof (wi_timers _ _ _ Hw) as Htm.
    inversion Ht; subst; simpl; rewrite ?app_nil_r; auto.
    + split.
      * rewrite app_assoc. apply NoDup_app. split; [assumption |].
        split; [| apply NoDup_singleton].
        intros x Hx Hx'. apply list_elem_of_singleton in Hx'. subst x.
        apply elem_of_app in Hx. rewrite Forall_forall in Hall, Htm.
        destruct Hx as [Hx | Hx]; [apply Hall in Hx | apply Htm in Hx]; lia.
      * eapply Forall_impl; [exact Hall |]. simpl. intros; lia.
    + match goal with H : _ \/ _ |- _ => destruct H as [-> | ->] end;
        simpl; rewrite app_nil_r; auto.
    + match goal with H : receive_ack _ _ = _ |- _ =>
        destruct (receive_ack_frame _ _ _ _ _ H) as (_ & _ & ->) end.
      auto.
    + split; [| assumption].
      match goal with H : timers w !! _ = Some _ |- _ =>
        rewrite (delete_Permutation _ _ _ H) in Hnd end.
      rewrite <- Permutation_middle in Hnd.
      now apply NoDup_cons in Hnd.
    + match goal with H : timers w !! _ = Some _ |- _ =>
        rewrite (delete_Permutation _ _ _ H) in Hnd;
        pose proof (list_elem_of_lookup_2 _ _ _ H) as Hin end.
      split.
      * rewrite <- app_assoc. exact Hnd.
      * apply Forall_app. split; [assumption |].
        apply Forall_singleton. rewrite Forall_forall in Htm. now apply Htm.
Qed.

Lemma one_timeout_per_frame_witness :
  NoDup (timed_out [EvStart; EvSend 0; EvLoss 0; EvTimeout 0; EvLoss 0] ++ timers stuck_world)
  /\ Forall (fun seq => 0 <= seq < next_seq_num (arq stuck_world))
            (timed_out [EvStart; EvSend 0; EvLoss 0; EvTimeout 0; EvLoss 0]).
Proof.
  apply (one_timeout_per_frame module_config lossy 1 1
           (one_frame_sent ++ [RunSender 0; FireTimer 0; RunSender 0])%nat).
  reflexivity.
Defined.

(** ** Acknowledgement lines *)

(** X3. The frames of the [ACK RECEIVED] lines of a run are exactly the
    frames whose slot is [True], each printed once: an acknowledgement is
    never announced twice, and no slot is set without its line. *)
Theorem acks_printed_once (cfg : Config) (src : nat -> Q) (total window : Z)
        (sched : list action) (w : World) (evs : list event) :
  exec cfg src (start total window) sched = Some (w, evs) ->
  NoDup (acked evs)
  /\ forall seq, seq ∈ acked evs
                 <-> 0 <= seq /\ ack_received (arq w) !! Z.to_nat seq = Some true.
Proof.
  revert sched w evs.
  apply (run_invariant cfg src total window
           (fun w evs =>
              NoDup (acked evs)
              /\ forall seq, seq ∈ acked evs
                   <-> 0 <= seq /\ ack_received (arq w) !! Z.to_nat seq = Some true)).
  - split; [constructor |]. intros seq. split.
    + intros H. inversion H.
    + intros [_ H]. simpl in H. apply lookup_replicate in H. destruct H; discriminate.
  - intros w evs a w' e Hw [Hnd Hiff] Ht. rewrite acked_app.
    inversion Ht; subst; simpl; rewrite ?app_nil_r; auto.
    + match goal with H : _ \/ _ |- _ => destruct H as [-> | ->] end;
        simpl; rewrite app_nil_r; auto.
    + match goal with
      | Hk : sleepers w !! _ = Some _, Hg : getitem _ _ = Some false,
        Hs : setitem _ _ _ = Some _ |- _ =>
          pose proof (wi_sleepers _ _ _ Hw) as Hall;
          rewrite Forall_lookup in Hall; specialize (Hall _ _ Hk); simpl in Hall;
          rename Hg into Hget; rename Hs into Hset
      end.
      rewrite getitem_nonneg in Hget by lia.
      assert (Hidx : index (length (ack_received (arq w))) seq = Some (Z.to_nat seq)).
      { apply index_nonneg. apply lookup_lt_Some in Hget. lia. }
      split.
      * apply NoDup_app. split; [assumption |]. split; [| apply NoDup_singleton].
        intros x Hx Hx'. apply list_elem_of_singleton in Hx'. subst x.
        apply Hiff in Hx. destruct Hx as [_ Hx]. congruence.
      * intros x. rewrite elem_of_app, list_elem_of_singleton, Hiff. split.
        -- intros [[Hx Htrue] | ->].
           ++ split; [assumption |]. eapply setitem_true_keeps; eauto.
           ++ split; [lia |]. rewrite <- getitem_nonneg by lia.
              eapply setitem_same; eauto.
        -- intros [Hx Htrue].
           destruct (setitem_true_new _ _ _ _ Hset Htrue) as [Hold | Hnew]; [auto |].
           right. rewrite Hidx in Hnew. injection Hnew as Hnew. lia.
Qed.

Lemma acks_printed_once_witness :
  NoDup (acked [EvStart; EvSend 0; EvAck 0])
  /\ forall seq, seq ∈ acked [EvStart; EvSend 0; EvAck 0]
                 <-> 0 <= seq /\ ack_received (arq acked_world) !! Z.to_nat seq = Some true.
Proof.
  apply (acks_printed_once module_config steady 1 1
           (one_frame_sent ++ [RunSender 0; WakeSleeper 0])%nat).
  reflexivity.
Defined.

(** ** The closing line *)

(** X4. [run] prints its closing line only when every frame has been
    acknowledged: once the line is printed the main thread is past its loop,
    [base] has reached [total_frames] and every slot of the table is
    [True], and this stays so whatever the other threads still do. *)
Theorem done_means_all_acked (cfg : Config) (src : nat -> Q) (total window : Z)
        (sched : list action) (w : World) (evs : list event) :
  exec cfg src (start total window) sched = Some (w, evs) ->
  EvDone ∈ evs ->
  main w = Finished
  /\ total_frames (arq w) <= base (arq w)
  /\ ack_received (arq w) = replicate (Z.to_nat total) true.
Proof.
  intros Hexec Hdone.
  assert (Hw : world_inv total window w).
  { eapply reachable_inv, exec_reachable; [apply reach_start | exact Hexec]. }
  assert (HP : (EvDone ∈ evs -> main w = Finished)
               /\ (main w = Finished -> total_frames (arq w) <= base (arq w))).
  { revert sched w evs Hexec Hdone Hw. intros sched w evs Hexec _ _. revert sched w evs Hexec.
    apply (run_invariant cfg src total window
             (fun w evs =>
                (EvDone ∈ evs -> main w = Finished)
                /\ (main w = Finished -> total_frames (arq w) <= base (arq w)))).
    - split; [intros H; inversion H | discriminate].
    - intros w0 evs0 a w' e Hw0 [Hd Hf] Ht.
      assert (Hmono : forall self' out c sq,
                 receive_ack (arq w0) sq = (self', out, c) ->
                 total_frames self' = total_frames (arq w0)
                 /\ base (arq w0) <= base self').
      { intros self' out c sq Hra.
        destruct (receive_ack_keeps _ _ _ _ _ (wi_arq _ _ _ Hw0) Hra)
          as (_ & Ht' & _ & _ & Hb & _). auto. }
      inversion Ht; subst; simpl;
        (split; [rewrite elem_of_app; intros [Hin | Hin] |]);
        try (apply Hd in Hin; congruence);
        try (apply list_elem_of_singleton in Hin; discriminate);
        try (inversion Hin; fail);
        try discriminate; try reflexivity; auto.
      + intros _. match goal with H : unfinished _ = false |- _ =>
          unfold unfinished in H; apply Z.ltb_ge in H; exact H end.
      + match goal with H : _ \/ _ |- _ => destruct H as [-> | ->] end;
          [inversion Hin | apply list_elem_of_singleton in Hin; discriminate].
      + intros Hfin. match goal with H : receive_ack _ _ = _ |- _ =>
          destruct (Hmono _ _ _ _ H) as [-> Hb] end.
        specialize (Hf Hfin). lia. }
  destruct HP as [Hd Hf]. specialize (Hf (Hd Hdone)).
  split; [auto |]. split; [assumption |].
  pose proof (wi_arq _ _ _ Hw) as Hinv.
  symmetry. apply replicate_as_Forall. split.
  - rewrite (inv_length _ Hinv). now rewrite (wi_total _ _ _ Hw).
  - apply Forall_lookup. intros k b Hk.
    pose proof (lookup_lt_Some _ _ _ Hk) as Hlt.
    rewrite (inv_length _ Hinv) in Hlt.
    rewrite <- (Nat2Z.id k) in Hk.
    rewrite (inv_below _ Hinv (Z.of_nat k)) in Hk by lia. congruence.
Qed.

Lemma done_means_all_acked_witness :
  main (world_after module_config steady 1 1
          (one_frame_sent ++ [RunSender 0; WakeSleeper 0; RunMain])%nat) = Finished
  /\ total_frames (arq acked_world) <= base (arq acked_world)
  /\ ack_received (arq acked_world) = replicate (Z.to_nat 1) true.
Proof.
  apply (done_means_all_acked module_config steady 1 1
           (one_frame_sent ++ [RunSender 0; WakeSleeper 0; RunMain])%nat
           (world_after module_config steady 1 1
              (one_frame_sent ++ [RunSender 0; WakeSleeper 0; RunMain])%nat)
           [EvStart; EvSend 0; EvAck 0; EvDone]).
  - reflexivity.
  - repeat constructor.
Defined.

(** ** Exceptions *)

(** X5. No thread of a run raises: in every state a run reaches, the
    [receive_ack] call of any sleeping [send_frame] thread and the table
    read of any pending timer thread complete normally. *)
Theorem run_raises_nothing (cfg : Config) (src : nat -> Q) (total window : Z) (w : World) :
  reachable cfg src total window w ->
  (forall k d seq, sleepers w !! k = Some (d, seq) ->
                   snd (receive_ack (arq w) seq) = Normal)
  /\ (forall k seq, timers w !! k = Some seq ->
                    snd (timer_thread (arq w) seq) = Normal).
Proof.
  intros Hr. pose proof (reachable_inv _ _ _ _ _ Hr) as Hw. split.
  - intros k d seq Hk.
    pose proof (wi_sleepers _ _ _ Hw) as Hall. rewrite Forall_lookup in Hall.
    specialize (Hall _ _ Hk). simpl in Hall.
    destruct (receive_ack_sent _ _ _ _ Hw Hall) as (self' & evs & -> & _).
    reflexivity.
  - intros k seq Hk.
    pose proof (wi_timers _ _ _ Hw) as Hall. rewrite Forall_lookup in Hall.
    specialize (Hall _ _ Hk). simpl in Hall.
    pose proof (inv_length _ (wi_arq _ _ _ Hw)) as Hlen.
    pose proof (wi_order _ _ _ Hw) as Hord. rewrite (wi_total _ _ _ Hw) in Hlen.
    unfold timer_thread. rewrite getitem_nonneg by lia.
    destruct (ack_received (arq w) !! Z.to_nat seq) as [[|]|] eqn:Hget; try reflexivity.
    apply lookup_ge_None in Hget. lia.
Qed.

Lemma run_raises_nothing_witness :
  (forall k d seq, sleepers ack_pending_world !! k = Some (d, seq) ->
                   snd (receive_ack (arq ack_pending_world) seq) = Normal)
  /\ (forall k seq, timers ack_pending_world !! k = Some seq ->
                    snd (timer_thread (arq ack_pending_world) seq) = Normal).
Proof.
  apply (run_raises_nothing module_config steady 1 1).
  apply world_after_reachable.
Defined.

(** X6. [receive_ack] is all or nothing.  On a sender object however
    obtained, with [n] the number of slots, the call returns normally when
    [-n <= seq < n]; otherwise it raises [IndexError] from its first read,
    with the object unchanged and nothing printed.  The sliding loop itself
    never raises. *)
Theorem receive_ack_all_or_nothing (total window : Z) (self : SelectiveRepeatARQ) (seq : Z) :
  built total window self ->
  Z.of_nat (length (ack_received self)) = Z.max 0 (total_frames self)
  /\ (- Z.max 0 (total_frames self) <= seq < Z.max 0 (total_frames self) ->
      snd (receive_ack self seq) = Normal)
  /\ (seq < - Z.max 0 (total_frames self) \/ Z.max 0 (total_frames self) <= seq ->
      receive_ack self seq = (self, [], Raises IndexError)).
Proof.
  intros Hb. destruct (built_inv _ _ _ Hb) as [Hinv _].
  pose proof (inv_length _ Hinv) as Hlen.
  assert (Hn : Z.of_nat (length (ack_received self)) = Z.max 0 (total_frames self)) by lia.
  split; [assumption |]. rewrite <- Hn. split.
  - intros Hseq.
    assert (Hk : exists k, index (length (ack_received self)) seq = Some k).
    { destruct (Z.le_gt_cases 0 seq).
      - eexists. apply index_nonneg. lia.
      - eexists. apply index_negative. lia. }
    destruct Hk as [k Hk].
    destruct (receive_ack_defined _ _ _ Hinv Hk) as (self' & evs & -> & _).
    reflexivity.
  - intros Hseq. unfold receive_ack, getitem.
    now rewrite index_out_of_range by lia.
Qed.

Lemma receive_ack_all_or_nothing_witness :
  Z.of_nat (length (ack_received (new_arq 3 2))) = Z.max 0 3
  /\ snd (receive_ack (new_arq 3 2) (-3)) = Normal
  /\ receive_ack (new_arq 3 2) (-4) = (new_arq 3 2, [], Raises IndexError).
Proof.
  pose proof (built_init 3 2) as Hb.
  destruct (receive_ack_all_or_nothing 3 2 _ (-3) Hb) as (Hlen & Hin & _).
  destruct (receive_ack_all_or_nothing 3 2 _ (-4) Hb) as (_ & _ & Hout).
  split; [exact Hlen |].
  split; [apply Hin; simpl; lia | apply Hout; simpl; lia].
Defined.

(** ** Delays *)



(** ** One pass of the sending loop *)

Lemma exec_cons (cfg : Config) (src : nat -> Q) (w : World) (a : action)
      (sched : list action) :
  exec cfg src w (a :: sched)
  = match step cfg src w a with
    | None => None
    | Some (w', evs) =>
        match exec cfg src w' sched with
        | None => None
        | Some (w'', evs') => Some (w'', evs ++ evs')
        end
    end.
Proof. reflexivity. Qed.

Lemma exec_app (cfg : Config) (src : nat -> Q) (s1 s2 : list action) :
  forall w w1 e1 w2 e2,
    exec cfg src w s1 = Some (w1, e1) ->
    exec cfg src w1 s2 = Some (w2, e2) ->
    exec cfg src w (s1 ++ s2) = Some (w2, e1 ++ e2).
Proof.
  induction s1 as [| a s1 IH]; intros w w1 e1 w2 e2; simpl.
  - now intros [= <- <-].
  - destruct (step cfg src w a) as [[w' evs] |]; [| discriminate].
    destruct (exec cfg src w' s1) as [[w'' evs'] |] eqn:He; [| discriminate].
    intros [= <- <-] H2. rewrite (IH _ _ _ _ _ He H2). now rewrite app_assoc.
Qed.

Lemma set_next_seq_num_same (self : SelectiveRepeatARQ) :
  set_next_seq_num self (next_seq_num self) = self.
Proof. now destruct self. Qed.

(** One pass of the inner [while] of [run], from the lock taken to the lock
    released. *)
Lemma sending_loop_pass (cfg : Config) (src : nat -> Q) (w : World) :
  main w = InLock ->
  let self := arq w in
  let room := Z.min (base self + window_size self) (total_frames self)
              - next_seq_num self in
  exists w',
    exec cfg src w (replicate (S (Z.to_nat room)) RunMain)
    = Some (w', EvSend <$> seqZ (next_seq_num self) room)
    /\ main w' = AtOuter
    /\ arq w' = set_next_seq_num self (next_seq_num self + Z.max 0 room)
    /\ window_open (arq w') = false
    /\ senders w' = senders w ++ (make_frame <$> seqZ (next_seq_num self) room)
    /\ sleepers w' = sleepers w
    /\ timers w' = timers w ++ seqZ (next_seq_num self) room
    /\ draws w' = draws w.
Proof.
  intros Hm. cbv zeta.
  remember (Z.to_nat (Z.min (base (arq w) + window_size (arq w)) (total_frames (arq w))
                      - next_seq_num (arq w))) as m eqn:Heqm.
  revert w Hm Heqm. induction m as [| m IH]; intros w Hm Heqm.
  - assert (Ho : window_open (arq w) = false).
    { unfold window_open.
      destruct (Z.ltb_spec (next_seq_num (arq w)) (base (arq w) + window_size (arq w)));
        destruct (Z.ltb_spec (next_seq_num (arq w)) (total_frames (arq w)));
        try reflexivity; lia. }
    rewrite seqZ_nil by lia.
    eexists. split.
    + simpl. unfold step_main, send_in_window. rewrite Hm, Ho. reflexivity.
    + simpl. rewrite !app_nil_r.
      replace (Z.max 0 _) with 0 by lia. rewrite Z.add_0_r.
      now rewrite set_next_seq_num_same.
  - assert (Ho : window_open (arq w) = true).
    { unfold window_open.
      destruct (Z.ltb_spec (next_seq_num (arq w)) (base (arq w) + window_size (arq w)));
        destruct (Z.ltb_spec (next_seq_num (arq w)) (total_frames (arq w)));
        try reflexivity; lia. }
    set (w1 := mkWorld (set_next_seq_num (arq w) (next_seq_num (arq w) + 1)) InLock
                       (senders w ++ [make_frame (next_seq_num (arq w))]) (sleepers w)
                       (timers w ++ [next_seq_num (arq w)]) (draws w)).
    destruct (IH w1 eq_refl) as (w' & Hexec & Hmain & Harq & Hopen & Hs & Hsl & Htm & Hd).
    { simpl. lia. }
    simpl in Harq, Hs, Hsl, Htm, Hd.
    exists w'.
    rewrite (seqZ_cons (next_seq_num (arq w))) by lia.
    replace (Z.succ (next_seq_num (arq w))) with (next_seq_num (arq w) + 1) by lia.
    replace (Z.pred (Z.min (base (arq w) + window_size (arq w)) (total_frames (arq w))
                     - next_seq_num (arq w)))
      with (Z.min (base (arq w) + window_size (arq w)) (total_frames (arq w))
            - (next_seq_num (arq w) + 1)) by lia.
    split.
    + change (replicate (S (S m)) RunMain) with (RunMain :: replicate (S m) RunMain).
      rewrite exec_cons. change (step cfg src w RunMain) with (step_main w).
      unfold step_main, send_in_window. rewrite Hm, Ho.
      change (seq_num (make_frame (next_seq_num (arq w)))) with (next_seq_num (arq w)).
      fold w1. rewrite Hexec. reflexivity.
    + repeat split; auto.
      * rewrite Harq. unfold set_next_seq_num. simpl. f_equal. lia.
      * rewrite Hs, <- app_assoc. reflexivity.
      * rewrite Htm, <- app_assoc. reflexivity.
Qed.

(** X8. Each time [run] holds the lock its inner loop ends: it sends the
    next frames in order, as many as fit below [base + window_size] and
    [total_frames] (none if there is no room), starts one [send_frame]
    thread and one timer for each, touches nothing else, and releases the
    lock. *)
Theorem inner_loop_fills_window (cfg : Config) (src : nat -> Q) (w : World) :
  main w = InLock ->
  let self := arq w in
  let room := Z.min (base self + window_size self) (total_frames self)
              - next_seq_num self in
  exists w',
    exec cfg src w (replicate (S (Z.to_nat room)) RunMain)
    = Some (w', EvSend <$> seqZ (next_seq_num self) room)
    /\ main w' = AtOuter
    /\ arq w' = set_next_seq_num self (next_seq_num self + Z.max 0 room)
    /\ window_open (arq w') = false
    /\ senders w' = senders w ++ (make_frame <$> seqZ (next_seq_num self) room)
    /\ sleepers w' = sleepers w
    /\ timers w' = timers w ++ seqZ (next_seq_num self) room
    /\ draws w' = draws w.
Proof.
  intros Hm self room. subst self room.
  destruct (sending_loop_pass cfg src w Hm) as (w' & Hexec & Hrest).
  exists w'. split; [exact Hexec | exact Hrest].
Qed.

Lemma inner_loop_fills_window_witness :
  exists w',
    exec module_config steady (world_after module_config steady 5 2 (sending_schedule 0))
         (replicate 3 RunMain)
    = Some (w', [EvSend 0; EvSend 1])
    /\ main w' = AtOuter
    /\ arq w' = mkARQ 5 2 0 2 (replicate 5 false)
    /\ window_open (arq w') = false
    /\ senders w' = [make_frame 0; make_frame 1]
    /\ sleepers w' = []
    /\ timers w' = [0; 1]
    /\ draws w' = 0%nat.
Proof.
  apply (inner_loop_fills_window module_config steady
           (world_after module_config steady 5 2 (sending_schedule 0))).
  reflexivity.
Defined.

(** ** The window base, whatever is acknowledged *)

(** X9. On a sender object however obtained, whatever integers
    [receive_ack] was called with (frames not sent yet, negative indices,
    indices out of range), [base] is the smallest index whose slot is
    [False], or [total_frames] when every slot is [True]. *)
Theorem base_is_first_unacked (total window : Z) (self : SelectiveRepeatARQ) :
  built total window self ->
  0 <= total ->
  first_unacked self (base self).
Proof.
  intros Hb Ht. destruct (built_inv _ _ _ Hb) as [Hinv Htot].
  destruct (ack_received self) as [| x l] eqn:Hacks.
  - pose proof (inv_length _ Hinv) as Hlen. rewrite Hacks in Hlen. simpl in Hlen.
    assert (Hbase : base self = 0).
    { pose proof (inv_base _ Hinv) as H0.
      destruct (Z.eq_dec (base self) 0) as [| Hne]; [assumption |].
      pose proof (inv_below _ Hinv 0) as Hbelow. rewrite Hacks in Hbelow.
      simpl in Hbelow. discriminate Hbelow. lia. }
    unfold first_unacked. rewrite Hbase. repeat split; lia.
  - apply arq_inv_first_unacked; [assumption |]. rewrite Hacks. discriminate.
Qed.

Lemma base_is_first_unacked_witness :
  first_unacked (fst (fst (receive_ack (new_arq 3 2) (-3))))
                (base (fst (fst (receive_ack (new_arq 3 2) (-3))))).
Proof.
  apply (base_is_first_unacked 3 2); [| lia].
  apply (built_receive_ack 3 2 (new_arq 3 2) (-3) _ [EvAck (-3)] Normal);
    [apply (built_init 3 2) | reflexivity].
Defined.

(** ** A run over a channel that loses nothing *)

(** The acknowledgement of the frame at [base] when the frames below it are
    the acknowledged ones: [base] moves up by one. *)
Lemma receive_ack_in_order (window nxt : Z) (nb r : nat) :
  receive_ack
    (mkARQ (Z.of_nat (nb + S r)) window (Z.of_nat nb) nxt
           (replicate nb true ++ replicate (S r) false))
    (Z.of_nat nb)
  = (mkARQ (Z.of_nat (nb + S r)) window (Z.of_nat (S nb)) nxt
           (replicate (S nb) true ++ replicate r false),
     [EvAck (Z.of_nat nb)], Normal).
Proof.
  assert (Hacks : <[nb := true]> (replicate nb true ++ replicate (S r) false)
                  = replicate (S nb) true ++ replicate r false).
  { rewrite insert_app_r_alt by (rewrite length_replicate; lia).
    rewrite length_replicate, Nat.sub_diag.
    change (<[0%nat := true]> (replicate (S r) false)) with (true :: replicate r false).
    rewrite cons_middle, app_assoc, <- replicate_S_end. reflexivity. }
  unfold receive_ack. simpl.
  rewrite getitem_nonneg by lia. rewrite Nat2Z.id.
  rewrite lookup_app_r by (rewrite length_replicate; lia).
  rewrite length_replicate, Nat.sub_diag. simpl.
  rewrite setitem_nonneg
    by (rewrite length_app; simpl; rewrite !length_replicate; lia).
  rewrite Nat2Z.id.
  change (false :: replicate r false) with (replicate (S r) false).
  rewrite Hacks.
  rewrite slide_window_eq.
  replace (Z.of_nat nb <? Z.of_nat (nb + S r)) with true
    by (symmetry; apply Z.ltb_lt; lia).
  rewrite getitem_nonneg by lia. rewrite Nat2Z.id.
  rewrite lookup_app_l by (rewrite length_replicate; lia).
  rewrite lookup_replicate_2 by lia.
  rewrite slide_window_eq.
  replace (Z.of_nat nb + 1) with (Z.of_nat (S nb)) by lia.
  destruct (Z.ltb_spec (Z.of_nat (S nb)) (Z.of_nat (nb + S r))); [| reflexivity].
  rewrite getitem_nonneg by lia. rewrite Nat2Z.id.
  rewrite lookup_app_r by (rewrite length_replicate; lia).
  rewrite length_replicate, Nat.sub_diag.
  destruct r as [| r']; [lia | reflexivity].
Qed.

(** A [send_frame] call that does not take the loss branch hands the
    frame's number on to [receive_ack]. *)
Lemma send_frame_through (cfg : Config) (frame : Frame) (src : nat -> Q) (i : nat) :
  ~ (src (S i) < LOSS_PROBABILITY cfg)%Q ->
  exists evs d j,
    send_frame cfg frame src i = (evs, SleepThenAck d (seq_num frame), j).
Proof.
  intros Hl. apply Qltb_ge in Hl.
  unfold send_frame, uniform, random, mbind, mret, rand_bind, rand_ret.
  rewrite Hl.
  destruct (Qltb (src (S (S i))) (REORDER_PROBABILITY cfg)); eauto.
Qed.

(** The pending [send_frame] threads run one after the other. *)
Lemma run_senders (cfg : Config) (src : nat -> Q) (fs : list Frame) :
  (forall n, ~ (src n < LOSS_PROBABILITY cfg)%Q) ->
  forall w,
    senders w = fs ->
    exists w' evs,
      exec cfg src w (replicate (length fs) (RunSender 0)) = Some (w', evs)
      /\ arq w' = arq w /\ main w' = main w /\ senders w' = []
      /\ snd <$> sleepers w' = (snd <$> sleepers w) ++ (seq_num <$> fs)
      /\ timers w' = timers w.
Proof.
  intros Hsrc. induction fs as [| f fs IH]; intros w Hs.
  - exists w, []. simpl. rewrite app_nil_r. repeat split; auto.
  - destruct (send_frame_through cfg f src (draws w) (Hsrc _)) as (e & d & j & Hsf).
    set (w1 := mkWorld (arq w) (main w) fs (sleepers w ++ [(d, seq_num f)]) (timers w) j).
    destruct (IH w1 eq_refl) as (w' & evs & Hexec & Harq & Hmain & Hsend & Hsl & Htm).
    exists w', (e ++ evs).
    split.
    + change (replicate (length (f :: fs)) (RunSender 0))
        with (RunSender 0 :: replicate (length fs) (RunSender 0)).
      rewrite exec_cons. simpl step. rewrite Hs. simpl. rewrite Hsf.
      fold w1. now rewrite Hexec.
    + repeat split; auto.
      rewrite Hsl. simpl. rewrite fmap_app, <- app_assoc. reflexivity.
Qed.

(** Sleeping threads for the frames [base], [base + 1], ... wake in that
    order: each acknowledgement moves [base] up by one. *)
Lemma wake_in_order (cfg : Config) (src : nat -> Q) (window nxt : Z) (m : nat) :
  forall nb r w,
    arq w = mkARQ (Z.of_nat (nb + (m + r))) window (Z.of_nat nb) nxt
                  (replicate nb true ++ replicate (m + r) false) ->
    lock_free w = true ->
    snd <$> sleepers w = seqZ (Z.of_nat nb) (Z.of_nat m) ->
    exists w' evs,
      exec cfg src w (replicate m (WakeSleeper 0)) = Some (w', evs)
      /\ arq w' = mkARQ (Z.of_nat (nb + (m + r))) window (Z.of_nat (nb + m)) nxt
                        (replicate (nb + m) true ++ replicate r false)
      /\ main w' = main w /\ senders w' = senders w /\ sleepers w' = []
      /\ timers w' = timers w.
Proof.
  induction m as [| m IH]; intros nb r w Harq Hfree Hsl.
  - exists w, []. rewrite seqZ_nil in Hsl by lia.
    apply fmap_nil_inv in Hsl. rewrite Nat.add_0_r. repeat split; auto.
  - rewrite seqZ_cons in Hsl by lia.
    destruct (sleepers w) as [| [d s] rest] eqn:Hsleep; [discriminate |].
    rewrite fmap_cons in Hsl. injection Hsl as Hs Hrest. simpl in Hs. subst s.
    set (w1 := mkWorld (mkARQ (Z.of_nat (nb + S (m + r))) window (Z.of_nat (S nb)) nxt
                              (replicate (S nb) true ++ replicate (m + r) false))
                       (main w) (senders w) rest (timers w) (draws w)).
    destruct (IH (S nb) r w1) as (w' & evs & Hexec & Harq' & Hmain & Hsend & Hsl' & Htm).
    { simpl. f_equal. lia. }
    { exact Hfree. }
    { change (snd <$> rest = seqZ (Z.of_nat (S nb)) (Z.of_nat m)).
      rewrite Hrest. f_equal; lia. }
    exists w', ([EvAck (Z.of_nat nb)] ++ evs). split.
    + change (replicate (S m) (WakeSleeper 0))
        with (WakeSleeper 0 :: replicate m (WakeSleeper 0)).
      rewrite exec_cons. simpl step. rewrite Hsleep. simpl. rewrite Hfree, Harq.
      change (S m + r)%nat with (S (m + r)).
      rewrite receive_ack_in_order. fold w1. now rewrite Hexec.
    + repeat split; auto. rewrite Harq'. f_equal; try lia.
      replace (S nb + m)%nat with (nb + S m)%nat by lia. reflexivity.
Qed.

Lemma seq_num_make_frame (l : list Z) : seq_num <$> (make_frame <$> l) = l.
Proof.
  induction l as [| x l IH]; [reflexivity |].
  rewrite !fmap_cons, IH. reflexivity.
Qed.

(** Timers of acknowledged frames expire one after the other, each doing
    nothing. *)
Lemma fire_acked_timers (cfg : Config) (src : nat -> Q) (l : list Z) :
  forall w,
    timers w = l ->
    lock_free w = true ->
    Forall (fun seq => getitem (ack_received (arq w)) seq = Some true) l ->
    exists w',
      exec cfg src w (replicate (length l) (FireTimer 0)) = Some (w', [])
      /\ arq w' = arq w /\ main w' = main w /\ senders w' = senders w
      /\ sleepers w' = sleepers w /\ timers w' = [].
Proof.
  induction l as [| seq l IH]; intros w Htm Hfree Hall.
  - exists w. repeat split; auto.
  - apply Forall_cons in Hall. destruct Hall as [Hseq Hall].
    set (w1 := mkWorld (arq w) (main w) (senders w) (sleepers w) l (draws w)).
    destruct (IH w1 eq_refl Hfree Hall) as (w' & Hexec & Harq & Hmain & Hs & Hsl & Ht).
    exists w'. split.
    + change (replicate (length (seq :: l)) (FireTimer 0))
        with (FireTimer 0 :: replicate (length l) (FireTimer 0)).
      rewrite exec_cons.
      rewrite (fire_acked_timer cfg src w 0 seq);
        [| rewrite Htm; reflexivity | assumption | assumption].
      rewrite Htm. simpl delete. fold w1. now rewrite Hexec.
    + repeat split; auto.
Qed.

(** From a state where the frames below [base] are the acknowledged ones and
    no thread but the main one is left, round after round: the window is
    filled, every frame of it gets through and is acknowledged, the timers
    expire, until [run] ends. *)
Lemma rounds_complete (cfg : Config) (src : nat -> Q) (window : Z) :
  1 <= window ->
  (forall n, ~ (src n < LOSS_PROBABILITY cfg)%Q) ->
  forall r nb w,
    arq w = mkARQ (Z.of_nat (nb + r)) window (Z.of_nat nb) (Z.of_nat nb)
                  (replicate nb true ++ replicate r false) ->
    main w = AtOuter -> senders w = [] -> sleepers w = [] -> timers w = [] ->
    exists sched w' evs,
      exec cfg src w sched = Some (w', evs)
      /\ main w' = Finished
      /\ EvDone ∈ evs
      /\ base (arq w') = Z.of_nat (nb + r)
      /\ ack_received (arq w') = replicate (nb + r) true
      /\ senders w' = [] /\ sleepers w' = [] /\ timers w' = [].
Proof.
  intros Hwin Hsrc r.
  induction r as [r IH] using lt_wf_ind. intros nb w Harq Hmain Hsend Hsleep Htimers.
  destruct w as [self pc sd sl tm dr].
  simpl in Harq, Hmain, Hsend, Hsleep, Htimers. subst.
  destruct r as [| r0].
  - exists [RunMain]. eexists _, _. split.
    + simpl. unfold step_main, unfinished. simpl.
      replace (Z.of_nat nb <? Z.of_nat (nb + 0)) with false
        by (symmetry; apply Z.ltb_ge; lia).
      reflexivity.
    + simpl. repeat split; auto.
      * apply list_elem_of_singleton. reflexivity.
      * now rewrite app_nil_r, Nat.add_0_r.
  - set (self := mkARQ (Z.of_nat (nb + S r0)) window (Z.of_nat nb) (Z.of_nat nb)
                       (replicate nb true ++ replicate (S r0) false)).
    set (w2 := mkWorld self InLock [] [] [] dr).
    assert (H12 : exec cfg src (mkWorld self AtOuter [] [] [] dr) [RunMain; RunMain]
                  = Some (w2, [])).
    { simpl. unfold step_main, unfinished. simpl.
      replace (Z.of_nat nb <? Z.of_nat (nb + S r0)) with true
        by (symmetry; apply Z.ltb_lt; lia).
      reflexivity. }
    destruct (sending_loop_pass cfg src w2 eq_refl)
      as (w3 & H3 & Hm3 & Ha3 & _ & Hs3 & Hsl3 & Ht3 & _).
    simpl in H3, Ha3, Hs3, Hsl3, Ht3.
    set (room := Z.min (Z.of_nat nb + window) (Z.of_nat (nb + S r0)) - Z.of_nat nb) in *.
    set (m := Z.to_nat room).
    assert (Hroom : room = Z.of_nat m) by (unfold m, room; lia).
    assert (Hm : (1 <= m <= S r0)%nat) by (unfold m, room; lia).
    destruct (run_senders cfg src (senders w3) Hsrc w3 eq_refl)
      as (w4 & e4 & H4 & Ha4 & Hm4 & Hs4 & Hsl4 & Ht4).
    rewrite Hsl3, Hs3 in Hsl4. simpl in Hsl4. rewrite seq_num_make_frame in Hsl4.
    assert (Hlen : length (senders w3) = m).
    { rewrite Hs3. simpl. rewrite length_fmap, length_seqZ. reflexivity. }
    rewrite Hlen in H4.
    destruct (wake_in_order cfg src window (Z.of_nat nb + Z.max 0 room) m nb (S r0 - m) w4)
      as (w5 & e5 & H5 & Ha5 & Hm5 & Hs5 & Hsl5 & Ht5).
    { rewrite Ha4, Ha3. unfold set_next_seq_num, self. simpl.
      replace (m + (S r0 - m))%nat with (S r0) by lia. reflexivity. }
    { unfold lock_free. now rewrite Hm4, Hm3. }
    { rewrite Hsl4, Hroom. reflexivity. }
    destruct (fire_acked_timers cfg src (timers w5) w5 eq_refl)
      as (w6 & H6 & Ha6 & Hm6 & Hs6 & Hsl6 & Ht6).
    { unfold lock_free. now rewrite Hm5, Hm4, Hm3. }
    { rewrite Ht5, Ht4, Ht3, Ha5. simpl.
      apply Forall_seqZ. intros s Hs.
      rewrite getitem_nonneg by lia.
      rewrite lookup_app_l by (rewrite length_replicate; lia).
      apply lookup_replicate_2. lia. }
    assert (Hlen6 : length (timers w5) = m).
    { rewrite Ht5, Ht4, Ht3. simpl. now rewrite length_seqZ. }
    rewrite Hlen6 in H6.
    destruct (IH (S r0 - m)%nat ltac:(lia) (nb + m)%nat w6)
      as (sched & w7 & e7 & H7 & Hm7 & Hd7 & Hb7 & Ha7 & Hs7 & Hsl7 & Ht7).
    { rewrite Ha6, Ha5. f_equal; lia. }
    { now rewrite Hm6, Hm5, Hm4, Hm3. }
    { now rewrite Hs6, Hs5, Hs4. }
    { now rewrite Hsl6. }
    { exact Ht6. }
    exists ([RunMain; RunMain] ++ replicate (S m) RunMain
            ++ replicate m (RunSender 0) ++ replicate m (WakeSleeper 0)
            ++ replicate m (FireTimer 0) ++ sched).
    eexists _, _. split.
    + eapply exec_app; [exact H12 |].
      eapply exec_app; [exact H3 |].
      eapply exec_app; [exact H4 |].
      eapply exec_app; [exact H5 |].
      eapply exec_app; [exact H6 | exact H7].
    + split; [exact Hm7 |]. split.
      * rewrite !elem_of_app. auto 10.
      * replace (nb + S r0)%nat with (nb + m + (S r0 - m))%nat by lia. auto 10.
Qed.

(** X10. With the module constants as they are, draws in [0, 1) none of
    which falls below [LOSS_PROBABILITY] (so that every delay slept is
    between 0.5 and 3.5 seconds and no frame is lost), an object that
    [__init__] has built for zero or more frames and a window of at least
    one, a run can complete: there is a schedule after which [run] has
    printed its closing line, every frame is acknowledged and every thread
    it started has ended. *)
Theorem loss_free_run_completes (capacity : Z) (src : nat -> Q) (total window : Z)
        (self : SelectiveRepeatARQ) :
  __init__ capacity module_config total window = Ok self ->
  0 <= total -> 1 <= window ->
  (forall n, 0 <= src n /\ src n < 1)%Q ->
  (forall n, ~ (src n < LOSS_PROBABILITY module_config)%Q) ->
  arq (start total window) = self
  /\ exists sched w evs,
      exec module_config src (start total window) sched = Some (w, evs)
      /\ main w = Finished
      /\ EvDone ∈ evs
      /\ base (arq w) = total
      /\ ack_received (arq w) = replicate (Z.to_nat total) true
      /\ senders w = [] /\ sleepers w = [] /\ timers w = [].
Proof.
  intros Hinit Ht Hwin Hdraws Hsrc.
  split; [symmetry; exact (init_returns _ _ _ _ _ Hinit) |].
  set (n := Z.to_nat total).
  assert (Hn : total = Z.of_nat (0 + n)) by (unfold n; lia).
  destruct (rounds_complete module_config src window Hwin Hsrc n 0%nat
              (mkWorld (new_arq total window) AtOuter [] [] [] 0))
    as (sched & w & evs & Hexec & Hmain & Hdone & Hbase & Hacks & Hpools);
    try reflexivity.
  { simpl. unfold new_arq. fold n. f_equal. exact Hn. }
  exists (RunMain :: sched), w, ([EvStart] ++ evs). split.
  - rewrite exec_cons. simpl step. unfold step_main. simpl main.
    unfold start in *. simpl. now rewrite Hexec.
  - split; [exact Hmain |]. split; [rewrite elem_of_app; auto |].
    split; [lia |]. split; [exact Hacks | exact Hpools].
Qed.

Lemma loss_free_run_completes_witness :
  arq (start TOTAL_FRAMES WINDOW_SIZE) = new_arq TOTAL_FRAMES WINDOW_SIZE
  /\ exists sched w evs,
      exec module_config steady (start TOTAL_FRAMES WINDOW_SIZE) sched = Some (w, evs)
      /\ main w = Finished
      /\ EvDone ∈ evs
      /\ base (arq w) = TOTAL_FRAMES
      /\ ack_received (arq w) = replicate (Z.to_nat TOTAL_FRAMES) true
      /\ senders w = [] /\ sleepers w = [] /\ timers w = [].
Proof.
  apply (loss_free_run_completes 1000 steady TOTAL_FRAMES WINDOW_SIZE).
  - reflexivity.
  - unfold TOTAL_FRAMES. lia.
  - unfold WINDOW_SIZE. lia.
  - intros n. split; [discriminate | reflexivity].
  - intros n H. vm_compute in H. discriminate.
Defined.

(** ** Acknowledgements in any order *)

Lemma receive_ack_table (self self' : SelectiveRepeatARQ) (seq : Z) (k : nat)
      (evs : list event) (c : completion) :
  arq_inv self ->
  index (length (ack_received self)) seq = Some k ->
  receive_ack self seq = (self', evs, c) ->
  ack_received self' = <[k := true]> (ack_received self)
  /\ arq_inv self'
  /\ total_frames self' = total_frames self
  /\ window_size self' = window_size self
  /\ next_seq_num self' = next_seq_num self.
Proof.
  intros Hinv Hk Heq.
  destruct (receive_ack_keeps _ _ _ _ _ Hinv Heq) as (Hinv' & Ht & Hw & Hn & _).
  split; [| split; [exact Hinv' | auto]].
  pose proof (receive_ack_paths self seq) as Hp. rewrite Heq in Hp.
  inversion Hp as [Hget | Hget | acks b c' Hget Hset Hslide]; subst.
  - unfold getitem in Hget. rewrite Hk in Hget.
    apply lookup_ge_None in Hget. apply index_lt in Hk. lia.
  - unfold getitem in Hget. rewrite Hk in Hget.
    symmetry. now apply list_insert_id.
  - unfold setitem in Hset. rewrite Hk in Hset. now injection Hset as <-.
Qed.

Lemma arq_inv_base_le (s1 s2 : SelectiveRepeatARQ) :
  arq_inv s1 -> arq_inv s2 ->
  ack_received s1 = ack_received s2 ->
  total_frames s1 = total_frames s2 ->
  base s1 <= base s2.
Proof.
  intros H1 H2 Hacks Ht.
  destruct (Z.le_gt_cases (base s1) (base s2)) as [| Hgt]; [assumption | exfalso].
  pose proof (inv_base _ H2) as Hb2.
  pose proof (inv_below _ H1 (base s2) ltac:(lia)) as Htrue.
  pose proof (lookup_lt_Some _ _ _ Htrue) as Hlt.
  rewrite (inv_length _ H1) in Hlt.
  pose proof (inv_at _ H2 ltac:(lia)) as Hfalse.
  rewrite Hacks in Htrue. congruence.
Qed.

(** X11. Acknowledgements commute: on a sender object however obtained,
    delivering the acknowledgements of two frames in one order or the other
    leaves the same object (same table, same [base], same
    [next_seq_num]). *)
Theorem ack_order_irrelevant (total window : Z) (self : SelectiveRepeatARQ) (a b : Z) :
  built total window self ->
  0 <= a < total_frames self ->
  0 <= b < total_frames self ->
  fst (fst (receive_ack (fst (fst (receive_ack self a))) b))
  = fst (fst (receive_ack (fst (fst (receive_ack self b))) a)).
Proof.
  intros Hb Ha Hb'. destruct (built_inv _ _ _ Hb) as [Hinv _].
  pose proof (inv_length _ Hinv) as Hlen.
  assert (Hidx : forall s x, length (ack_received s) = length (ack_received self) ->
                   0 <= x < total_frames self ->
                   index (length (ack_received s)) x = Some (Z.to_nat x)).
  { intros s x Hl Hx. apply index_nonneg. rewrite Hl. lia. }
  destruct (receive_ack self a) as [[sa ea] ca] eqn:Hra.
  destruct (receive_ack self b) as [[sb eb] cb] eqn:Hrb.
  destruct (receive_ack_table _ _ _ _ _ _ Hinv (Hidx self a eq_refl Ha) Hra)
    as (Haa & Hia & Hta & Hwa & Hna).
  destruct (receive_ack_table _ _ _ _ _ _ Hinv (Hidx self b eq_refl Hb') Hrb)
    as (Hbb & Hib & Htb & Hwb & Hnb).
  simpl.
  destruct (receive_ack sa b) as [[sab eab] cab] eqn:Hrab.
  destruct (receive_ack sb a) as [[sba eba] cba] eqn:Hrba.
  assert (Hla : length (ack_received sa) = length (ack_received self))
    by (rewrite Haa; apply length_insert).
  assert (Hlb : length (ack_received sb) = length (ack_received self))
    by (rewrite Hbb; apply length_insert).
  destruct (receive_ack_table _ _ _ _ _ _ Hia (Hidx sa b Hla Hb') Hrab)
    as (Hab & Hiab & Htab & Hwab & Hnab).
  destruct (receive_ack_table _ _ _ _ _ _ Hib (Hidx sb a Hlb Ha) Hrba)
    as (Hba & Hiba & Htba & Hwba & Hnba).
  simpl.
  assert (Hacks : ack_received sab = ack_received sba).
  { rewrite Hab, Hba, Haa, Hbb.
    destruct (decide (Z.to_nat b = Z.to_nat a)) as [-> | Hne]; [reflexivity |].
    now apply list_insert_insert_ne. }
  assert (Hbase : base sab = base sba).
  { apply Z.le_antisymm; apply arq_inv_base_le; auto; congruence. }
  destruct sab, sba. simpl in *. congruence.
Qed.

Lemma ack_order_irrelevant_witness :
  fst (fst (receive_ack (fst (fst (receive_ack (new_arq 3 2) 1))) 0))
  = fst (fst (receive_ack (fst (fst (receive_ack (new_arq 3 2) 0))) 1)).
Proof.
  apply (ack_order_irrelevant 3 2).
  - apply (built_init 3 2).
  - simpl. lia.
  - simpl. lia.
Defined.

(** ** Degenerate configurations *)

(** X12. With no frame to send ([total_frames <= 0]) [run] prints its
    banner and its closing line and ends; whatever is scheduled, nothing is
    ever sent, no thread is started and the object stays as built. *)
Theorem empty_stream_ends_at_once (cfg : Config) (src : nat -> Q) (total window : Z) :
  total <= 0 ->
  exec cfg src (start total window) [RunMain; RunMain]
  = Some (mkWorld (new_arq total window) Finished [] [] [] 0, [EvStart; EvDone])
  /\ forall sched w evs,
       exec cfg src (start total window) sched = Some (w, evs) ->
       sent evs = [] /\ arq w = new_arq total window
       /\ senders w = [] /\ sleepers w = [] /\ timers w = [].
Proof.
  intros Ht. split.
  - simpl. unfold step_main, unfinished. simpl.
    replace (0 <? total) with false by (symmetry; apply Z.ltb_ge; lia).
    reflexivity.
  - intros sched w evs Hexec.
    assert (Hw : world_inv total window w).
    { eapply reachable_inv, exec_reachable; [apply reach_start | exact Hexec]. }
    pose proof (wi_arq _ _ _ Hw) as Hinv.
    pose proof (inv_base _ Hinv) as Hb. pose proof (wi_order _ _ _ Hw) as Hord.
    assert (Hn : next_seq_num (arq w) = 0) by lia.
    assert (Hempty : forall (A : Type) (f : A -> Z) (l : list A),
               Forall (fun x => 0 <= f x < next_seq_num (arq w)) l -> l = []).
    { intros A f [| x l] Hall; [reflexivity |].
      apply Forall_cons in Hall. destruct Hall as [Hx _]. lia. }
    split; [| split; [| split; [| split]]].
    + rewrite (sent_so_far _ _ _ _ _ _ _ Hexec), Hn. reflexivity.
    + pose proof (inv_length _ Hinv) as Hlen.
      pose proof (wi_total _ _ _ Hw) as Htot. pose proof (wi_window _ _ _ Hw) as Hwin.
      destruct (arq w) as [t ws b n acks]. simpl in *.
      destruct acks; [| simpl in Hlen; lia].
      unfold new_arq.
      replace (Z.to_nat total) with 0%nat by lia. simpl.
      f_equal; lia.
    + apply (Hempty _ seq_num), (wi_senders _ _ _ Hw).
    + apply (Hempty _ snd), (wi_sleepers _ _ _ Hw).
    + apply (Hempty _ id), (wi_timers _ _ _ Hw).
Qed.

Lemma empty_stream_ends_at_once_witness :
  exec module_config steady (start 0 4) [RunMain; RunMain]
  = Some (mkWorld (new_arq 0 4) Finished [] [] [] 0, [EvStart; EvDone])
  /\ forall sched w evs,
       exec module_config steady (start 0 4) sched = Some (w, evs) ->
       sent evs = [] /\ arq w = new_arq 0 4
       /\ senders w = [] /\ sleepers w = [] /\ timers w = [].
Proof.
  apply (empty_stream_ends_at_once module_config steady 0 4). lia.
Defined.

(** X13. With a window of zero or less and at least one frame, [run] never
    sends anything and never ends: whatever is scheduled, no [SEND] line is
    printed, [base] and [next_seq_num] stay at 0 and the main thread never
    gets past its loop. *)
Theorem closed_window_never_ends (cfg : Config) (src : nat -> Q) (total window : Z)
        (sched : list action) (w : World) (evs : list event) :
  window <= 0 -> 1 <= total ->
  exec cfg src (start total window) sched = Some (w, evs) ->
  sent evs = []
  /\ base (arq w) = 0 /\ next_seq_num (arq w) = 0
  /\ main w <> Finished /\ EvDone ∉ evs.
Proof.
  intros Hwin Ht Hexec.
  assert (HP : next_seq_num (arq w) = 0 /\ main w <> Finished /\ EvDone ∉ evs).
  { revert sched w evs Hexec.
    apply (run_invariant cfg src total window
             (fun w evs => next_seq_num (arq w) = 0 /\ main w <> Finished /\ EvDone ∉ evs)).
    - repeat split; [discriminate | intros H; inversion H].
    - intros w0 evs0 a w' e Hw0 (Hn & Hm & Hd) Htr.
      pose proof (inv_base _ (wi_arq _ _ _ Hw0)) as Hb.
      pose proof (wi_order _ _ _ Hw0) as Hord.
      pose proof (wi_total _ _ _ Hw0) as Htot.
      pose proof (wi_window _ _ _ Hw0) as Hws.
      assert (Hnot : forall x, x <> EvDone -> EvDone ∉ evs0 ++ [x]).
      { intros x Hx Hin. apply elem_of_app in Hin. destruct Hin as [Hin | Hin];
          [auto | apply list_elem_of_singleton in Hin; congruence]. }
      inversion Htr; subst; simpl; rewrite ?app_nil_r;
        try (repeat split; auto; try discriminate; try congruence;
             apply Hnot; discriminate).
      + exfalso. match goal with H : unfinished _ = false |- _ =>
          unfold unfinished in H; apply Z.ltb_ge in H end. lia.
      + exfalso. match goal with H : window_open _ = true |- _ =>
          unfold window_open in H; apply andb_true_iff in H; destruct H as [H _];
          apply Z.ltb_lt in H end. lia.
      + match goal with H : _ \/ _ |- _ => destruct H as [-> | ->] end;
          rewrite ?app_nil_r; repeat split; auto; apply Hnot; discriminate.
      + match goal with H : receive_ack _ _ = _ |- _ =>
          destruct (receive_ack_frame _ _ _ _ _ H) as (_ & _ & ->) end.
        repeat split; auto; apply Hnot; discriminate. }
  destruct HP as (Hn & Hm & Hd).
  assert (Hw : world_inv total window w).
  { eapply reachable_inv, exec_reachable; [apply reach_start | exact Hexec]. }
  pose proof (inv_base _ (wi_arq _ _ _ Hw)) as Hb.
  pose proof (wi_order _ _ _ Hw) as Hord.
  repeat split; auto; try lia.
  rewrite (sent_so_far _ _ _ _ _ _ _ Hexec), Hn. reflexivity.
Qed.

Lemma closed_window_never_ends_witness :
  sent [EvStart] = []
  /\ base (arq (world_after module_config steady 3 0 (sending_schedule 1 ++ [RunMain]))) = 0
  /\ next_seq_num (arq (world_after module_config steady 3 0 (sending_schedule 1 ++ [RunMain]))) = 0
  /\ main (world_after module_config steady 3 0 (sending_schedule 1 ++ [RunMain])) <> Finished
  /\ EvDone ∉ [EvStart].
Proof.
  apply (closed_window_never_ends module_config steady 3 0
           (sending_schedule 1 ++ [RunMain])); [lia | lia | reflexivity].
Defined.
